(** * Snake game engine (LAB_3_4_5/snake_game.py): grid state machine and BFS autopilot

    Shallow embedding of the simulation core of [snake_game.py]: the
    [Snake] agent ([turn], [move], [grow]), goal and obstacle placement by
    rejection sampling, the breadth-first pathfinder [bfs_pathfinding] and
    the per-frame body of [game_loop] (event handling, autopilot, collision
    and goal resolution).  Rendering, fonts and clock pacing are left out.

    Python integers are [Z]; tuples [(x, y)] are pairs of [Z]; Python lists
    are [list]; the [visited] set of the pathfinder is a [gset].  Python's
    [%] with a positive modulus and [//] are [Z.modulo] and [Z.div]. *)

From Stdlib Require Import ZArith Lia.
From stdpp Require Import base decidable option list gmap.

Local Open Scope Z_scope.

(** ** Configuration and directions *)

Abbreviation coord := (Z * Z)%type.

Definition GRID_SIZE : Z := 20.

Definition UP : coord := (0, -1).
Definition DOWN : coord := (0, 1).
Definition LEFT : coord := (-1, 0).
Definition RIGHT : coord := (1, 0).

(** The literal [[UP, DOWN, LEFT, RIGHT]] that the source iterates over. *)
Definition DIRECTIONS : list coord := [UP; DOWN; LEFT; RIGHT].

(** [(p[0] * -1, p[1] * -1)] *)
Definition negate (p : coord) : coord := (p.1 * -1, p.2 * -1).

(** ** The [random] module

    The entropy source is an infinite stream of raw integers; [randint] and
    [choice] reduce a raw draw into the requested range, so every value of
    the range can come out and nothing outside it can. *)

Definition rng : Type := nat → Z.

Definition rng_next (r : rng) : Z * rng := (r 0%nat, λ n, r (S n)).

(** [random.randint(a, b)], both ends included. *)
Definition randint (a b : Z) (r : rng) : Z * rng :=
  let '(z, r') := rng_next r in (a + z mod (b - a + 1), r').

(** [random.choice(l)]; [None] is the [IndexError] on an empty list. *)
Definition choice {A : Type} (l : list A) (r : rng) : option (A * rng) :=
  let '(z, r') := rng_next r in
  match l !! Z.to_nat (z mod Z.of_nat (length l)) with
  | Some x => Some (x, r')
  | None => None
  end.

(** [get_random_position]: the [while True] loop runs on [fuel]; [None]
    means that no acceptable cell was drawn within [fuel] attempts. *)
Fixpoint get_random_position (fuel : nat) (snake_body obstacles : list coord)
    (food_pos : option coord) (r : rng) : option (coord * rng) :=
  match fuel with
  | O => None
  | S fuel' =>
      let '(px, r1) := randint 0 (GRID_SIZE - 1) r in
      let '(py, r2) := randint 0 (GRID_SIZE - 1) r1 in
      let pos := (px, py) in
      if bool_decide (pos ∉ snake_body) && bool_decide (pos ∉ obstacles)
         && match food_pos with None => true | Some f => bool_decide (pos ≠ f) end
      then Some (pos, r2)
      else get_random_position fuel' snake_body obstacles food_pos r2
  end.

(** ** class Snake *)

Module Snake.

Record t : Type := mk {
  length : Z;
  positions : list coord;
  direction : coord;
  score : Z
}.

(** [reset]: every attribute is overwritten, so the result does not depend
    on the previous state. *)
Definition reset (r : rng) : option (t * rng) :=
  '(d, r') ← choice DIRECTIONS r;
  Some ({| length := 1;
           positions := [(GRID_SIZE / 2, GRID_SIZE / 2)];
           direction := d;
           score := 0 |}, r').

(** [self.positions[0]]; [None] is the [IndexError] on an empty body. *)
Definition get_head_position (s : t) : option coord := head (positions s).

Definition turn (point : coord) (s : t) : t :=
  if (1 <? length s) && bool_decide (negate point = direction s)
  then s
  else {| length := length s; positions := positions s;
          direction := point; score := score s |}.

(** Lines 76-78 of [move]: the wrapped successor of the head. *)
Definition new_head (s : t) : option coord :=
  cur ← get_head_position s;
  let '(x, y) := direction s in
  Some ((cur.1 + x) `mod` GRID_SIZE, (cur.2 + y) `mod` GRID_SIZE).

(** [insert(0, new_head)] followed by the conditional [pop()]. *)
Definition shift (len : Z) (nh : coord) (body : list coord) : list coord :=
  let inserted := nh :: body in
  if len <? Z.of_nat (Datatypes.length inserted) then removelast inserted else inserted.

(** [move] returns the collision flag together with the updated snake. *)
Definition move (s : t) : option (bool * t) :=
  nh ← new_head s;
  if (2 <? Z.of_nat (Datatypes.length (positions s)))
     && bool_decide (nh ∈ drop 2 (positions s))
  then Some (true, s)
  else Some (false, {| length := length s;
                       positions := shift (length s) nh (positions s);
                       direction := direction s; score := score s |}).

Definition grow (s : t) : t :=
  {| length := length s + 1; positions := positions s;
     direction := direction s; score := score s + 1 |}.

(** The snake right after [reset] when [random.choice] returned [d]. *)
Definition initial (d : coord) : t :=
  {| length := 1; positions := [(GRID_SIZE / 2, GRID_SIZE / 2)];
     direction := d; score := 0 |}.

(** Operations that the game applies to the agent. *)
Inductive op : Type :=
  | Turn (d : coord)
  | Advance
  | Grow.

Definition apply (o : op) (s : t) : option t :=
  match o with
  | Turn d => Some (turn d s)
  | Advance => '(_, s') ← move s; Some s'
  | Grow => Some (grow s)
  end.

Fixpoint run (ops : list op) (s : t) : option t :=
  match ops with
  | [] => Some s
  | o :: ops' => s' ← apply o s; run ops' s'
  end.

(** States reachable from a freshly reset snake. *)
Inductive reachable : t → Prop :=
  | reach_initial d : d ∈ DIRECTIONS → reachable (initial d)
  | reach_apply o s s' : reachable s → apply o s = Some s' → reachable s'.

(** The body never outgrows the length counter. *)
Definition body_fits (s : t) : Prop :=
  (0 < Datatypes.length (positions s))%nat ∧
  Z.of_nat (Datatypes.length (positions s)) ≤ length s.

End Snake.

(** ** class Food *)

Module Food.

Record t : Type := mk { position : coord }.

(** [__init__]: the first goal, with no previous position to avoid. *)
Definition init (fuel : nat) (snake_body obstacles : list coord) (r : rng)
    : option (t * rng) :=
  '(p, r') ← get_random_position fuel snake_body obstacles None r;
  Some (mk p, r').

Definition randomize_position (fuel : nat) (f : t) (snake_body obstacles : list coord)
    (r : rng) : option (t * rng) :=
  '(p, r') ← get_random_position fuel snake_body obstacles (Some (position f)) r;
  Some (mk p, r').

End Food.

(** ** class Obstacles *)

Module Obstacles.

Record t : Type := mk { positions : list coord; num_obstacles : Z }.

(** The 5 x 5 block around the head, in the order the two loops add its
    cells (the source keeps them in a set and only tests membership). *)
Definition safe_spawn_area_for_snake (head : coord) : list coord :=
  dx ← seqZ (-2) 5; dy ← seqZ (-2) 5; [(head.1 + dx, head.2 + dy)].

(** The [for _ in range(num_obstacles)] loop. *)
Fixpoint place (n fuel : nat) (forbidden placed : list coord) (r : rng)
    : option (list coord * rng) :=
  match n with
  | O => Some (placed, r)
  | S n' =>
      '(pos, r') ← get_random_position fuel forbidden placed None r;
      place n' fuel forbidden (placed ++ [pos]) r'
  end.

Definition generate_obstacles (fuel : nat) (o : t) (snake_body : list coord) (r : rng)
    : option (t * rng) :=
  hd ← head snake_body;
  '(ps, r') ← place (Z.to_nat (num_obstacles o)) fuel
                 (snake_body ++ safe_spawn_area_for_snake hd) [] r;
  Some ({| positions := ps; num_obstacles := num_obstacles o |}, r').

End Obstacles.

(** ** BFS autopilot *)

(** [0 <= next_x < GRID_SIZE and 0 <= next_y < GRID_SIZE] *)
Definition in_bounds (c : coord) : bool :=
  (0 <=? c.1) && (c.1 <? GRID_SIZE) && (0 <=? c.2) && (c.2 <? GRID_SIZE).

(** [next_pos in obstacles or next_pos in snake_body[:-1]] *)
Definition blocked (snake_body obstacles : list coord) (c : coord) : bool :=
  bool_decide (c ∈ obstacles) || bool_decide (c ∈ removelast snake_body).

(** Body of the [for dx, dy in [UP, DOWN, LEFT, RIGHT]] loop for one
    direction, acting on the queue and the visited set. *)
Definition expand (snake_body obstacles path : list coord) (current_head : coord)
    (st : list (list coord) * gset coord) (d : coord) : list (list coord) * gset coord :=
  let next_pos := (current_head.1 + d.1, current_head.2 + d.2) in
  if negb (in_bounds next_pos) then st
  else if bool_decide (next_pos ∈ st.2) || blocked snake_body obstacles next_pos then st
  else (st.1 ++ [path ++ [next_pos]], st.2 ∪ {[next_pos]}).

(** The [while queue] loop.  [None] stands for a run that gives no result:
    the fuel ran out, or [path[-1]] raised on an empty path. *)
Fixpoint bfs_loop (fuel : nat) (target : coord) (snake_body obstacles : list coord)
    (queue : list (list coord)) (visited : gset coord) : option (list coord) :=
  match fuel with
  | O => None
  | S fuel' =>
      match queue with
      | [] => Some []
      | path :: queue' =>
          current_head ← last path;
          if bool_decide (current_head = target) then Some (tail path)
          else
            let st := foldl (expand snake_body obstacles path current_head)
                            (queue', visited) DIRECTIONS in
            bfs_loop fuel' target snake_body obstacles st.1 st.2
      end
  end.

(** Every iteration either finishes or marks fresh in-bounds cells, so
    this many iterations are never used up (lemma [bfs_loop_total]). *)
Definition bfs_fuel : nat := Z.to_nat (2 * (GRID_SIZE * GRID_SIZE) + 2).

Definition bfs_pathfinding (start_pos target_pos : coord) (snake_body obstacles : list coord)
    : option (list coord) :=
  bfs_loop bfs_fuel target_pos snake_body obstacles [[start_pos]] {[start_pos]}.

(** ** game_loop *)

Inductive key : Type :=
  K_UP | K_DOWN | K_LEFT | K_RIGHT | K_a | K_r | K_ESCAPE | K_other.

Inductive event : Type :=
  | QUIT
  | KEYDOWN (k : key)
  | OTHER.

(** Whether [game_loop] goes on after a frame or has returned. *)
Inductive flow : Type := Continue | Return.

#[global] Instance key_eq_dec : EqDecision key.
Proof. solve_decision. Defined.

#[global] Instance event_eq_dec : EqDecision event.
Proof. solve_decision. Defined.

Record Game : Type := mkGame {
  snake : Snake.t;
  obstacles : Obstacles.t;
  food : Food.t;
  game_over : bool;
  autopilot_on : bool;
  autopilot_path : list coord
}.

Definition with_snake (s : Snake.t) (g : Game) : Game :=
  mkGame s (obstacles g) (food g) (game_over g) (autopilot_on g) (autopilot_path g).

Definition with_path (p : list coord) (g : Game) : Game :=
  mkGame (snake g) (obstacles g) (food g) (game_over g) (autopilot_on g) p.

Definition reset_game_state (fuel : nat) (g : Game) (r : rng) : option (Game * rng) :=
  '(s, r1) ← Snake.reset r;
  '(o, r2) ← Obstacles.generate_obstacles fuel (obstacles g) (Snake.positions s) r1;
  '(f, r3) ← Food.randomize_position fuel (food g) (Snake.positions s)
                (Obstacles.positions o) r2;
  Some (mkGame s o f false (autopilot_on g) [], r3).

(** The arrow keys of the manual controls. *)
Definition manual_turn (k : key) (s : Snake.t) : Snake.t :=
  match k with
  | K_UP => Snake.turn UP s
  | K_DOWN => Snake.turn DOWN s
  | K_LEFT => Snake.turn LEFT s
  | K_RIGHT => Snake.turn RIGHT s
  | _ => s
  end.

(** One iteration of [for event in pygame.event.get()]. *)
Definition handle_event (fuel : nat) (ev : event) (g : Game) (r : rng)
    : option (flow * Game * rng) :=
  match ev with
  | QUIT => Some (Return, g, r)
  | OTHER => Some (Continue, g, r)
  | KEYDOWN k =>
      if game_over g then
        match k with
        | K_r => '(g', r') ← reset_game_state fuel g r; Some (Continue, g', r')
        | _ => Some (Continue, g, r)
        end
      else
        let g1 := if autopilot_on g then g else with_snake (manual_turn k (snake g)) g in
        let g2 := match k with
                  | K_a => mkGame (snake g1) (obstacles g1) (food g1) (game_over g1)
                                  (negb (autopilot_on g1)) []
                  | _ => g1
                  end in
        match k with
        | K_ESCAPE => Some (Return, g2, r)
        | _ => Some (Continue, g2, r)
        end
  end.

Fixpoint handle_events (fuel : nat) (evs : list event) (g : Game) (r : rng)
    : option (flow * Game * rng) :=
  match evs with
  | [] => Some (Continue, g, r)
  | ev :: evs' =>
      '(fl, g', r') ← handle_event fuel ev g r;
      match fl with
      | Return => Some (Return, g', r')
      | Continue => handle_events fuel evs' g' r'
      end
  end.

(** [snake.positions[:-1]] when [snake.length > 1], else [snake.positions]. *)
Definition body_to_avoid_for_bfs (s : Snake.t) : list coord :=
  if 1 <? Snake.length s then removelast (Snake.positions s) else Snake.positions s.

(** Lines 312-319: one direction of the survival scan. *)
Definition consider_move (s : Snake.t) (obs : list coord) (head : coord)
    (possible_moves : list coord) (d : coord) : list coord :=
  let next_safe_pos := ((head.1 + d.1) `mod` GRID_SIZE, (head.2 + d.2) `mod` GRID_SIZE) in
  if bool_decide (next_safe_pos ∉ Snake.positions s) && bool_decide (next_safe_pos ∉ obs)
  then
    if (1 <? Snake.length s) && bool_decide (d = negate (Snake.direction s))
       && (1 <? Z.of_nat (length possible_moves))
    then possible_moves
    else possible_moves ++ [d]
  else possible_moves.

Definition possible_moves (s : Snake.t) (obs : list coord) (head : coord) : list coord :=
  foldl (consider_move s obs head) [] DIRECTIONS.

(** Lines 321-330: the direction handed to [snake.turn], if any. *)
Definition safety_intent (s : Snake.t) (obs : list coord) (r : rng)
    : option (option coord * rng) :=
  hd ← Snake.get_head_position s;
  let pm := possible_moves s obs hd in
  match pm with
  | [] => Some (None, r)
  | _ =>
      if bool_decide (Snake.direction s ∈ pm) then Some (Some (Snake.direction s), r)
      else '(d, r') ← choice pm r; Some (Some d, r')
  end.

Definition safety_step (s : Snake.t) (obs : list coord) (r : rng) : option (Snake.t * rng) :=
  '(i, r') ← safety_intent s obs r;
  Some (match i with Some d => Snake.turn d s | None => s end, r').

(** Lines 293-330: with an empty plan, search a path or take a safe step. *)
Definition plan (g : Game) (r : rng) : option (Game * rng) :=
  match autopilot_path g with
  | _ :: _ => Some (g, r)
  | [] =>
      hd ← Snake.get_head_position (snake g);
      path_to_food ← bfs_pathfinding hd (Food.position (food g))
                        (body_to_avoid_for_bfs (snake g))
                        (Obstacles.positions (obstacles g));
      match path_to_food with
      | _ :: _ => Some (with_path path_to_food g, r)
      | [] =>
          '(s', r') ← safety_step (snake g) (Obstacles.positions (obstacles g)) r;
          Some (with_path [] (with_snake s' g), r')
      end
  end.

(** Lines 339-346: a delta larger than one cell is taken as a wrap. *)
Definition unwrap_delta (d : Z) : Z :=
  if 1 <? d then -1 else if d <? -1 then 1 else d.

(** Lines 332-348: pop the next cell of the plan and turn towards it. *)
Definition follow (g : Game) : option Game :=
  match autopilot_path g with
  | [] => Some g
  | next_move_pos :: rest =>
      head_pos ← Snake.get_head_position (snake g);
      let dx := unwrap_delta (next_move_pos.1 - head_pos.1) in
      let dy := unwrap_delta (next_move_pos.2 - head_pos.2) in
      Some (with_path rest (with_snake (Snake.turn (dx, dy) (snake g)) g))
  end.

(** Lines 292-348: the autopilot's part of a frame. *)
Definition autopilot (g : Game) (r : rng) : option (Game * rng) :=
  '(g', r') ← plan g r;
  g'' ← follow g';
  Some (g'', r').

(** Lines 290-364: the simulation step of one frame. *)
Definition update (fuel : nat) (g : Game) (r : rng) : option (Game * rng) :=
  if game_over g then Some (g, r)
  else
    '(g1, r1) ← (if autopilot_on g then autopilot g r else Some (g, r));
    '(collision_with_self, s2) ← Snake.move (snake g1);
    hd ← Snake.get_head_position s2;
    let over1 := if bool_decide (hd ∈ Obstacles.positions (obstacles g1))
                 then true else game_over g1 in
    let over2 := if (collision_with_self : bool) then true else over1 in
    if bool_decide (hd = Food.position (food g1)) then
      let s3 := Snake.grow s2 in
      '(f', r2) ← Food.randomize_position fuel (food g1) (Snake.positions s3)
                     (Obstacles.positions (obstacles g1)) r1;
      Some (mkGame s3 (obstacles g1) f' over2 (autopilot_on g1) [], r2)
    else
      Some (mkGame s2 (obstacles g1) (food g1) over2 (autopilot_on g1)
                   (autopilot_path g1), r1).

(** One pass of [while True]: the pending events, then the simulation step. *)
Definition tick (fuel : nat) (evs : list event) (g : Game) (r : rng)
    : option (flow * Game * rng) :=
  '(fl, g1, r1) ← handle_events fuel evs g r;
  match fl with
  | Return => Some (Return, g1, r1)
  | Continue => '(g2, r2) ← update fuel g1 r1; Some (Continue, g2, r2)
  end.

(** * Properties *)

(** ** The agent *)

Lemma negate_swap (p q : coord) : negate p = q ↔ p = negate q.
Proof.
  destruct p as [px py], q as [qx qy]. unfold negate. simpl.
  split; intros [= ? ?]; f_equal; lia.
Qed.

Lemma turn_positions d s : Snake.positions (Snake.turn d s) = Snake.positions s.
Proof. unfold Snake.turn. by destruct (_ && _). Qed.

Lemma turn_length d s : Snake.length (Snake.turn d s) = Snake.length s.
Proof. unfold Snake.turn. by destruct (_ && _). Qed.

Lemma turn_score d s : Snake.score (Snake.turn d s) = Snake.score s.
Proof. unfold Snake.turn. by destruct (_ && _). Qed.

Lemma turn_rejected d s :
  1 < Snake.length s → d = negate (Snake.direction s) → Snake.turn d s = s.
Proof.
  intros Hlen Hd. unfold Snake.turn.
  apply negate_swap in Hd.
  rewrite (bool_decide_eq_true_2 _ Hd).
  by rewrite (proj2 (Z.ltb_lt _ _) Hlen).
Qed.

Lemma turn_accepted d s :
  ¬ (1 < Snake.length s ∧ d = negate (Snake.direction s)) →
  Snake.direction (Snake.turn d s) = d.
Proof.
  intros Hno. unfold Snake.turn.
  destruct (_ && _) eqn:E; [|done].
  apply andb_true_iff in E as [Hl Hd].
  apply Z.ltb_lt in Hl. apply bool_decide_eq_true in Hd.
  apply negate_swap in Hd. tauto.
Qed.

(** C3.  [turn d] leaves the snake as it is when [length > 1] and [d] is the
    exact opposite of the heading; in every other case, in particular
    whenever [length = 1], the heading becomes [d]; body, length and score
    are never touched. *)
Theorem turn_spec (d : coord) (s : Snake.t) :
  (1 < Snake.length s ∧ d = negate (Snake.direction s) → Snake.turn d s = s) ∧
  (¬ (1 < Snake.length s ∧ d = negate (Snake.direction s)) →
     Snake.direction (Snake.turn d s) = d) ∧
  (Snake.length s = 1 → Snake.direction (Snake.turn d s) = d) ∧
  Snake.positions (Snake.turn d s) = Snake.positions s ∧
  Snake.length (Snake.turn d s) = Snake.length s ∧
  Snake.score (Snake.turn d s) = Snake.score s.
Proof.
  split; [|split; [|split]].
  - intros [? ?]. by apply turn_rejected.
  - apply turn_accepted.
  - intros Hone. apply turn_accepted. lia.
  - auto using turn_positions, turn_length, turn_score.
Qed.

Lemma new_head_eq s cur :
  Snake.get_head_position s = Some cur →
  Snake.new_head s =
    Some ((cur.1 + (Snake.direction s).1) `mod` GRID_SIZE,
          (cur.2 + (Snake.direction s).2) `mod` GRID_SIZE).
Proof.
  intros H. unfold Snake.new_head. rewrite H. simpl.
  by destruct (Snake.direction s).
Qed.

Lemma shift_head len nh body :
  body ≠ [] → head (Snake.shift len nh body) = Some nh.
Proof.
  intros Hne. unfold Snake.shift.
  destruct body as [|b body]; [done|].
  by destruct (_ <? _).
Qed.

Lemma move_head s s' :
  Snake.move s = Some (false, s') →
  Snake.get_head_position s' = Snake.new_head s.
Proof.
  unfold Snake.move. destruct (Snake.new_head s) as [nh|] eqn:Hnh; [|done].
  simpl. destruct (_ && _); [done|]. intros [= <-].
  unfold Snake.get_head_position. simpl. apply shift_head.
  unfold Snake.new_head, Snake.get_head_position in Hnh.
  by destruct (Snake.positions s).
Qed.

Lemma move_total s cur :
  Snake.get_head_position s = Some cur → ∃ b s', Snake.move s = Some (b, s').
Proof.
  intros H. unfold Snake.move. rewrite (new_head_eq _ _ H). simpl.
  destruct (_ && _); eauto.
Qed.

Lemma length_removelast_cons {A : Type} (a : A) (l : list A) :
  length (removelast (a :: l)) = length l.
Proof.
  revert a. induction l as [|b l IH]; intros a; [done|].
  change (removelast (a :: b :: l)) with (a :: removelast (b :: l)).
  change (length (a :: removelast (b :: l))) with (S (length (removelast (b :: l)))).
  by rewrite IH.
Qed.

Lemma apply_body_fits o s s' :
  Snake.body_fits s → Snake.apply o s = Some s' → Snake.body_fits s'.
Proof.
  intros [Hpos Hle]. destruct o as [d| |]; simpl.
  - intros [= <-]. unfold Snake.body_fits.
    by rewrite turn_positions, turn_length.
  - unfold Snake.move. destruct (Snake.new_head s) as [nh|]; [|done]. simpl.
    destruct (_ && _); simpl; intros [= <-]; [done|].
    unfold Snake.body_fits, Snake.shift. cbn [Snake.positions Snake.length].
    destruct (Snake.positions s) as [|b body]; [simpl in Hpos; lia|].
    destruct (_ <? _) eqn:E.
    + rewrite length_removelast_cons. simpl in *. lia.
    + apply Z.ltb_ge in E. simpl in *. lia.
  - intros [= <-]. unfold Snake.body_fits. simpl. lia.
Qed.

(** Every state the game can put the agent in has a non-empty body that is
    no longer than the length counter. *)
Lemma reachable_body_fits s : Snake.reachable s → Snake.body_fits s.
Proof.
  induction 1 as [d _|o s s' _ IH Happ].
  - unfold Snake.body_fits. simpl. lia.
  - by eapply apply_body_fits.
Qed.

Lemma run_reachable ops s s' :
  Snake.reachable s → Snake.run ops s = Some s' → Snake.reachable s'.
Proof.
  revert s. induction ops as [|o ops IH]; simpl; intros s Hs.
  - by intros [= <-].
  - destruct (Snake.apply o s) as [s1|] eqn:E; [|done]. simpl.
    apply IH. by eapply Snake.reach_apply.
Qed.

Lemma drop_2_nonempty_length {A} (x : A) (l : list A) :
  x ∈ drop 2 l → (2 < length l)%nat.
Proof.
  destruct l as [|a [|b [|c l]]]; simpl; intros H.
  - by apply elem_of_nil in H.
  - by apply elem_of_nil in H.
  - by apply elem_of_nil in H.
  - lia.
Qed.

(** C1.  On a snake whose body fits its length counter (every reachable
    one, [reachable_body_fits]), [move] computes the wrapped successor of
    the head; when [length > 2] and that cell occurs in [body[2:]] it returns
    [True] and leaves the snake as it is; otherwise it returns [False] with
    the cell inserted in front and the last cell removed if the body is then
    longer than [length]. *)
Theorem move_spec (s : Snake.t) :
  Snake.body_fits s →
  ∃ cur, Snake.get_head_position s = Some cur ∧
    let new_head := ((cur.1 + (Snake.direction s).1) `mod` GRID_SIZE,
                     (cur.2 + (Snake.direction s).2) `mod` GRID_SIZE) in
    let inserted := new_head :: Snake.positions s in
    (2 < Snake.length s ∧ new_head ∈ drop 2 (Snake.positions s) →
       Snake.move s = Some (true, s)) ∧
    (¬ (2 < Snake.length s ∧ new_head ∈ drop 2 (Snake.positions s)) →
       Snake.move s =
         Some (false,
               {| Snake.length := Snake.length s;
                  Snake.positions :=
                    if bool_decide (Snake.length s < Z.of_nat (length inserted))
                    then removelast inserted else inserted;
                  Snake.direction := Snake.direction s;
                  Snake.score := Snake.score s |})).
Proof.
  intros [Hpos Hle].
  destruct (Snake.get_head_position s) as [cur|] eqn:Hcur; last first.
  { unfold Snake.get_head_position in Hcur.
    destruct (Snake.positions s); [simpl in Hpos; lia|done]. }
  exists cur. split; [done|]. simpl.
  unfold Snake.move. rewrite (new_head_eq _ _ Hcur). simpl.
  set (nh := (_, _)).
  split.
  - intros [Hlen Hin].
    rewrite (bool_decide_eq_true_2 _ Hin).
    apply drop_2_nonempty_length in Hin.
    by rewrite (proj2 (Z.ltb_lt 2 _)) by lia.
  - intros Hno.
    assert (nh ∉ drop 2 (Snake.positions s)) as Hnin.
    { intros Hin. apply Hno. split; [|done].
      apply drop_2_nonempty_length in Hin. lia. }
    rewrite (bool_decide_eq_false_2 _ Hnin), andb_false_r.
    do 3 f_equal. unfold Snake.shift.
    destruct (_ <? _) eqn:E.
    + apply Z.ltb_lt in E. by rewrite bool_decide_eq_true_2.
    + apply Z.ltb_ge in E. rewrite bool_decide_eq_false_2; [done|].
      simpl in *. lia.
Qed.

Lemma move_spec_witness :
  Snake.move (Snake.mk 4 [(2, 2); (2, 1); (2, 0); (1, 0)] LEFT 3) =
    Some (false, Snake.mk 4 [(1, 2); (2, 2); (2, 1); (2, 0)] LEFT 3).
Proof.
  destruct (move_spec (Snake.mk 4 [(2, 2); (2, 1); (2, 0); (1, 0)] LEFT 3))
    as (cur & Hcur & _ & Hmove).
  - unfold Snake.body_fits. simpl. lia.
  - injection Hcur as <-. rewrite Hmove; [reflexivity|].
    intros [_ Hin]. apply (bool_decide_eq_true_2 _) in Hin.
    vm_compute in Hin. discriminate Hin.
Defined.

(** C4 (the code departs from the claim).  Two turns between two advances
    reverse a three-cell snake: the advance reports no collision and leaves
    the head on the cell of its third segment. *)
Theorem double_turn_overlap :
  let ops := [Snake.Grow; Snake.Advance; Snake.Grow; Snake.Advance;
              Snake.Turn UP; Snake.Turn LEFT] in
  ∃ s s', Snake.run ops (Snake.initial RIGHT) = Some s ∧
    Snake.reachable s ∧
    Snake.positions s = [(12, 10); (11, 10); (10, 10)] ∧
    Snake.move s = Some (false, s') ∧
    Snake.positions s' = [(11, 10); (12, 10); (11, 10)] ∧
    Z.of_nat (length (Snake.positions s')) = Snake.length s' ∧
    ¬ NoDup (Snake.positions s').
Proof.
  intros ops.
  exists (Snake.mk 3 [(12, 10); (11, 10); (10, 10)] LEFT 2),
         (Snake.mk 3 [(11, 10); (12, 10); (11, 10)] LEFT 2).
  assert (Snake.run ops (Snake.initial RIGHT)
          = Some (Snake.mk 3 [(12, 10); (11, 10); (10, 10)] LEFT 2)) as Hrun
    by (vm_compute; reflexivity).
  split; [exact Hrun|]. split; [|split; [|split; [|split; [|split]]]].
  - apply (run_reachable ops (Snake.initial RIGHT)); [|exact Hrun].
    apply Snake.reach_initial. unfold DIRECTIONS. set_solver.
  - reflexivity.
  - vm_compute. reflexivity.
  - reflexivity.
  - reflexivity.
  - simpl. intros Hnd. apply NoDup_cons in Hnd as [Hnin _].
    apply Hnin. set_solver.
Qed.

Lemma move_collision s nh :
  Snake.new_head s = Some nh → nh ∈ drop 2 (Snake.positions s) →
  Snake.move s = Some (true, s).
Proof.
  intros Hnh Hin. unfold Snake.move. rewrite Hnh. simpl.
  rewrite (bool_decide_eq_true_2 _ Hin).
  apply drop_2_nonempty_length in Hin.
  by rewrite (proj2 (Z.ltb_lt 2 _)) by lia.
Qed.

Lemma move_advance s nh :
  Snake.new_head s = Some nh → (nh ∉ drop 2 (Snake.positions s)) →
  ∃ s', Snake.move s = Some (false, s') ∧ Snake.get_head_position s' = Some nh.
Proof.
  intros Hnh Hnin.
  assert (∃ s', Snake.move s = Some (false, s')) as [s' Hmove].
  { unfold Snake.move. rewrite Hnh. simpl.
    rewrite (bool_decide_eq_false_2 _ Hnin), andb_false_r. by eexists. }
  exists s'. split; [done|]. by rewrite (move_head _ _ Hmove).
Qed.

(** C8 (as amended).  [move] computes the successor of the head
    component-wise modulo [GRID_SIZE]; from [(GRID_SIZE - 1, y)] heading
    [RIGHT] that cell is [(0, y)].  Unless the cell occurs in [body[2:]],
    [move] returns [False] and the cell is the new head; if it does occur
    there, [move] returns [True] and the snake, head included, stays as it
    was. *)
Theorem move_wraps (s : Snake.t) (cur : coord) :
  Snake.get_head_position s = Some cur →
  let nh := ((cur.1 + (Snake.direction s).1) `mod` GRID_SIZE,
             (cur.2 + (Snake.direction s).2) `mod` GRID_SIZE) in
  Snake.new_head s = Some nh ∧
  ((nh ∉ drop 2 (Snake.positions s)) →
     ∃ s', Snake.move s = Some (false, s') ∧ Snake.get_head_position s' = Some nh) ∧
  (nh ∈ drop 2 (Snake.positions s) → Snake.move s = Some (true, s)) ∧
  (∀ y, 0 ≤ y < GRID_SIZE → cur = (GRID_SIZE - 1, y) → Snake.direction s = RIGHT →
     nh = (0, y) ∧
     (((0, y) ∉ drop 2 (Snake.positions s)) →
        ∃ s', Snake.move s = Some (false, s') ∧
              Snake.get_head_position s' = Some (0, y))).
Proof.
  intros Hcur nh. pose proof (new_head_eq _ _ Hcur) as Hnh.
  change (Snake.new_head s = Some nh) in Hnh.
  split; [exact Hnh|]. split; [exact (move_advance s nh Hnh)|].
  split; [exact (move_collision s nh Hnh)|].
  intros y Hy -> Hdir.
  assert (nh = (0, y)) as Heq.
  { unfold nh. rewrite Hdir. simpl.
    assert ((GRID_SIZE - 1 + 1) `mod` GRID_SIZE = 0) as ->.
    { replace (GRID_SIZE - 1 + 1) with (1 * GRID_SIZE) by lia.
      apply Z.mod_mul. unfold GRID_SIZE. lia. }
    assert ((y + 0) `mod` GRID_SIZE = y) as ->; [|done].
    rewrite Z.add_0_r. apply Z.mod_small. lia. }
  split; [exact Heq|]. intros Hnin. rewrite <- Heq in *.
  exact (move_advance s nh Hnh Hnin).
Qed.

Lemma move_wraps_witness :
  ∃ s', Snake.move (Snake.mk 1 [(19, 7)] RIGHT 0) = Some (false, s') ∧
        Snake.get_head_position s' = Some (0, 7).
Proof.
  apply (move_wraps (Snake.mk 1 [(19, 7)] RIGHT 0) (19, 7) eq_refl).
  - unfold GRID_SIZE. lia.
  - reflexivity.
  - reflexivity.
  - apply not_elem_of_nil.
Defined.

(** C8 (as first stated) fails when the wrapped cell is a body cell: this
    reachable snake has its head at [(GRID_SIZE - 1, 5)], heads [RIGHT], and
    its advance reports a collision and leaves the head where it was. *)
Lemma move_wraps_collision :
  ∃ s, Snake.reachable s ∧
    Snake.get_head_position s = Some (GRID_SIZE - 1, 5) ∧
    Snake.direction s = RIGHT ∧
    Snake.positions s = [(19, 5); (19, 6); (0, 6); (0, 5)] ∧
    Snake.move s = Some (true, s) ∧
    Snake.get_head_position s ≠ Some (0, 5).
Proof.
  exists (Snake.mk 4 [(19, 5); (19, 6); (0, 6); (0, 5)] RIGHT 3).
  split; [|by repeat split].
  apply (run_reachable
           ([Snake.Grow; Snake.Grow; Snake.Grow; Snake.Turn UP]
            ++ replicate 5 Snake.Advance ++ [Snake.Turn LEFT]
            ++ replicate 10 Snake.Advance
            ++ [Snake.Turn DOWN; Snake.Advance; Snake.Turn LEFT; Snake.Advance;
                Snake.Turn UP; Snake.Advance; Snake.Turn RIGHT])
           (Snake.initial LEFT)).
  - apply Snake.reach_initial. apply (bool_decide_unpack _). reflexivity.
  - vm_compute. reflexivity.
Qed.

(** ** Goal placement *)

Lemma randint_range a b r :
  a ≤ b → a ≤ fst (randint a b r) ∧ fst (randint a b r) ≤ b.
Proof.
  intros Hab. unfold randint, rng_next. simpl.
  pose proof (Z.mod_pos_bound (r 0%nat) (b - a + 1)). lia.
Qed.

Lemma get_random_position_sound fuel body obs fp r p r' :
  get_random_position fuel body obs fp r = Some (p, r') →
  (p ∉ body) ∧ (p ∉ obs) ∧ (∀ f, fp = Some f → p ≠ f) ∧ in_bounds p = true.
Proof.
  revert r. induction fuel as [|fuel IH]; intros r; [done|].
  cbn [get_random_position].
  destruct (randint 0 (GRID_SIZE - 1) r) as [px r1] eqn:E1.
  destruct (randint 0 (GRID_SIZE - 1) r1) as [py r2] eqn:E2.
  destruct (_ && _) eqn:Hok; [|apply IH].
  intros [= <- <-].
  apply andb_true_iff in Hok as [Hok Hf].
  apply andb_true_iff in Hok as [Hb Ho].
  apply bool_decide_eq_true in Hb. apply bool_decide_eq_true in Ho.
  split; [done|]. split; [done|]. split.
  - intros f ->. by apply bool_decide_eq_true in Hf.
  - pose proof (randint_range 0 (GRID_SIZE - 1) r) as Hx.
    pose proof (randint_range 0 (GRID_SIZE - 1) r1) as Hy.
    rewrite E1 in Hx. rewrite E2 in Hy. simpl in Hx, Hy.
    unfold in_bounds. rewrite !andb_true_iff, !Z.leb_le, !Z.ltb_lt.
    unfold GRID_SIZE in *. simpl. lia.
Qed.

(** The sampling loop returns as soon as a draw is acceptable. *)
Lemma get_random_position_first fuel body obs fp r px r1 py r2 :
  randint 0 (GRID_SIZE - 1) r = (px, r1) →
  randint 0 (GRID_SIZE - 1) r1 = (py, r2) →
  ((px, py) ∉ body) → ((px, py) ∉ obs) → (∀ f, fp = Some f → (px, py) ≠ f) →
  get_random_position (S fuel) body obs fp r = Some ((px, py), r2).
Proof.
  intros E1 E2 Hb Ho Hf. cbn [get_random_position]. rewrite E1, E2.
  rewrite (bool_decide_eq_true_2 _ Hb), (bool_decide_eq_true_2 _ Ho). simpl.
  destruct fp as [f|]; [|done].
  by rewrite bool_decide_eq_true_2; [|apply Hf].
Qed.

(** C6.  Whenever [randomize_position] returns, the new goal differs from
    the goal it replaces and lies neither on the body nor on an obstacle
    passed to it; the eating branch of the frame passes the current body and
    obstacles. *)
Theorem randomize_position_fresh (fuel : nat) (f f' : Food.t)
    (snake_body obs : list coord) (r r' : rng) :
  Food.randomize_position fuel f snake_body obs r = Some (f', r') →
  (Food.position f' ≠ Food.position f) ∧
  (Food.position f' ∉ obs) ∧
  (Food.position f' ∉ snake_body).
Proof.
  unfold Food.randomize_position.
  destruct (get_random_position _ _ _ _ _) as [[p r1]|] eqn:E; [|done].
  simpl. intros [= <- <-]. simpl.
  apply get_random_position_sound in E as (Hb & Ho & Hf & _).
  split; [by apply Hf|done].
Qed.

Lemma randomize_position_fresh_witness :
  (Food.position (Food.mk (2, 3)) ≠ Food.position (Food.mk (0, 1))) ∧
  (Food.position (Food.mk (2, 3)) ∉ [(5, 5)]) ∧
  (Food.position (Food.mk (2, 3)) ∉ [(10, 10); (9, 10)]).
Proof.
  apply (randomize_position_fresh 2 (Food.mk (0, 1)) (Food.mk (2, 3))
           [(10, 10); (9, 10)] [(5, 5)] Z.of_nat (λ n, Z.of_nat (S (S (S (S n)))))).
  reflexivity.
Defined.

(** ** The frame *)

Lemma handle_event_game_over fuel ev g r :
  game_over g = true → ev ≠ KEYDOWN K_r →
  ∃ fl, handle_event fuel ev g r = Some (fl, g, r).
Proof.
  intros Hover Hev. destruct ev as [|k|]; simpl; eauto.
  rewrite Hover. destruct k; eauto. done.
Qed.

Lemma handle_events_game_over fuel evs g r :
  game_over g = true → (KEYDOWN K_r ∉ evs) →
  ∃ fl, handle_events fuel evs g r = Some (fl, g, r).
Proof.
  intros Hover. induction evs as [|ev evs IH]; intros Hno; simpl; [eauto|].
  apply not_elem_of_cons in Hno as [Hev Hno].
  destruct (handle_event_game_over fuel ev g r Hover) as [fl ->]; [done|].
  simpl. destruct fl; eauto.
Qed.

(** C7.  A frame that starts with [game_over] set and whose events contain
    no press of [r] returns the game (snake, obstacles, goal, flags and
    plan) and the entropy source exactly as it found them. *)
Theorem game_over_sticky (fuel : nat) (evs : list event) (g : Game) (r : rng) :
  game_over g = true → (KEYDOWN K_r ∉ evs) →
  ∃ fl, tick fuel evs g r = Some (fl, g, r).
Proof.
  intros Hover Hno. unfold tick.
  destruct (handle_events_game_over fuel evs g r Hover Hno) as [fl ->].
  simpl. destruct fl; [|eauto].
  unfold update. rewrite Hover. simpl. eauto.
Qed.

Lemma game_over_sticky_witness :
  let g := mkGame (Snake.mk 3 [(4, 4); (3, 4); (2, 4)] RIGHT 2)
                  (Obstacles.mk [(4, 4)] 1) (Food.mk (7, 7)) true true [(5, 4)] in
  ∃ fl, tick 5 [KEYDOWN K_UP; KEYDOWN K_a; OTHER] g Z.of_nat = Some (fl, g, Z.of_nat).
Proof.
  intros g.
  apply (game_over_sticky 5 [KEYDOWN K_UP; KEYDOWN K_a; OTHER] g Z.of_nat).
  - reflexivity.
  - apply (bool_decide_eq_false_1 _). reflexivity.
Defined.

(** ** The survival step of the autopilot *)

(** A neighbour move with wrap-around, and what makes it safe. *)
Definition wrap_step (hd d : coord) : coord :=
  ((hd.1 + d.1) `mod` GRID_SIZE, (hd.2 + d.2) `mod` GRID_SIZE).

Definition safe_move (s : Snake.t) (obs : list coord) (hd d : coord) : Prop :=
  (wrap_step hd d ∉ Snake.positions s) ∧ (wrap_step hd d ∉ obs).

(** The move that [turn] would refuse. *)
Definition is_reversal (s : Snake.t) (d : coord) : Prop :=
  1 < Snake.length s ∧ d = negate (Snake.direction s).







Lemma direction_not_own_reversal d : d ∈ DIRECTIONS → d ≠ negate d.
Proof.
  unfold DIRECTIONS, UP, DOWN, LEFT, RIGHT.
  intros Hd. repeat (apply elem_of_cons in Hd as [->|Hd]); try done.
  by apply elem_of_nil in Hd.
Qed.












(** ** The pathfinder *)

(** One step of the search: plain integer addition, no wrap-around. *)
Definition step_to (c d : coord) : coord := (c.1 + d.1, c.2 + d.2).

(** All cells of the board, to count the ones not yet visited. *)
Definition grid_cells : list coord :=
  x ← seqZ 0 GRID_SIZE; y ← seqZ 0 GRID_SIZE; [(x, y)].

Definition grid_set : gset coord := list_to_set grid_cells.

(** Decreases with every iteration of the [while] loop. *)
Definition bfs_measure (st : list (list coord) * gset coord) : nat :=
  (2 * size (grid_set ∖ st.2) + length st.1)%nat.

Lemma in_bounds_spec c :
  in_bounds c = true ↔ 0 ≤ c.1 < GRID_SIZE ∧ 0 ≤ c.2 < GRID_SIZE.
Proof.
  unfold in_bounds. rewrite !andb_true_iff, !Z.leb_le, !Z.ltb_lt. lia.
Qed.

Lemma in_bounds_grid c : in_bounds c = true → c ∈ grid_set.
Proof.
  intros [Hx Hy]%in_bounds_spec. destruct c as [x y]. simpl in *.
  unfold grid_set, grid_cells. apply elem_of_list_to_set.
  apply list_elem_of_bind. exists x. split; [|apply elem_of_seqZ; lia].
  apply list_elem_of_bind. exists y. split; [|apply elem_of_seqZ; lia].
  apply list_elem_of_here.
Qed.

Lemma size_grid_set : (size grid_set ≤ 400)%nat.
Proof. by vm_compute. Qed.

Section pathfinder.

Context (snake_body obs : list coord).

(** A cell the search may enter. *)
Definition free (n : coord) : Prop :=
  in_bounds n = true ∧ blocked snake_body obs n = false.

Lemma expand_cases path c Q V d :
  (free (step_to c d) ∧ (step_to c d ∉ V) ∧
     expand snake_body obs path c (Q, V) d =
       (Q ++ [path ++ [step_to c d]], V ∪ {[step_to c d]})) ∨
  ((¬ free (step_to c d) ∨ step_to c d ∈ V) ∧
     expand snake_body obs path c (Q, V) d = (Q, V)).
Proof.
  unfold expand, free. fold (step_to c d). simpl.
  destruct (in_bounds (step_to c d)) eqn:Eb; simpl.
  2:{ right. split; [|done]. left. intros [? _]. done. }
  destruct (bool_decide (step_to c d ∈ V)) eqn:Ev; simpl.
  { right. apply bool_decide_eq_true in Ev. by split; [right|]. }
  apply bool_decide_eq_false in Ev.
  destruct (blocked snake_body obs (step_to c d)) eqn:Ek.
  - right. split; [|done]. left. intros [_ ?]. done.
  - left. done.
Qed.

Lemma expand_measure path c st d :
  (bfs_measure (expand snake_body obs path c st d) ≤ bfs_measure st)%nat.
Proof.
  destruct st as [Q V].
  destruct (expand_cases path c Q V d) as [([Hb _] & Hv & ->)|(_ & ->)]; [|done].
  unfold bfs_measure. cbn [fst snd]. rewrite length_app. cbn [length].
  assert (size (grid_set ∖ (V ∪ {[step_to c d]})) < size (grid_set ∖ V))%nat; [|lia].
  apply subset_size. apply in_bounds_grid in Hb.
  generalize dependent grid_set. intros G HG.
  split; [set_solver|].
  intros Hsub. specialize (Hsub (step_to c d)). set_solver.
Qed.

Lemma expand_all_measure path c ds st :
  (bfs_measure (foldl (expand snake_body obs path c) st ds) ≤ bfs_measure st)%nat.
Proof.
  revert st. induction ds as [|d ds IH]; intros st; simpl; [done|].
  etrans; [apply IH|apply expand_measure].
Qed.

(** The cells that the [for] loop enqueues around [c]. *)
Lemma expand_all path c ds Q V :
  ∃ ns,
    foldl (expand snake_body obs path c) (Q, V) ds =
      (Q ++ map (λ n, path ++ [n]) ns, V ∪ list_to_set ns) ∧
    (∀ n, n ∈ ns → (n ∉ V) ∧ free n ∧ ∃ d, d ∈ ds ∧ n = step_to c d) ∧
    (∀ d, d ∈ ds → free (step_to c d) → step_to c d ∈ V ∪ list_to_set ns).
Proof.
  revert Q V. induction ds as [|d ds IH]; intros Q V.
  - exists []. simpl. split; [|split].
    + rewrite app_nil_r. f_equal. by rewrite (right_id_L ∅ (∪)).
    + intros n Hn. by apply elem_of_nil in Hn.
    + intros d Hd. by apply elem_of_nil in Hd.
  - simpl.
    destruct (expand_cases path c Q V d) as [(Hf & Hv & ->)|(Hskip & ->)].
    + destruct (IH (Q ++ [path ++ [step_to c d]]) (V ∪ {[step_to c d]}))
        as (ns & -> & Hnew & Hall).
      exists (step_to c d :: ns). split; [|split].
      * simpl. rewrite <- app_assoc. simpl. f_equal. by rewrite (assoc_L (∪)).
      * intros n [->|Hn]%elem_of_cons.
        -- split; [done|]. split; [done|]. exists d. split; [apply list_elem_of_here|done].
        -- destruct (Hnew n Hn) as (Hnv & Hnf & e & He & Hne).
           split; [|split; [done|]].
           ++ intros Hin. apply Hnv, elem_of_union. by left.
           ++ exists e. split; [by apply list_elem_of_further|done].
      * intros e He Hfe. simpl. rewrite (assoc_L (∪)).
        apply elem_of_cons in He as [->|He]; [|by apply Hall].
        apply elem_of_union. left. apply elem_of_union. right.
        by apply elem_of_singleton.
    + destruct (IH Q V) as (ns & -> & Hnew & Hall).
      exists ns. split; [done|]. split.
      * intros n Hn. destruct (Hnew n Hn) as (Hnv & Hnf & e & He & Hne).
        split; [done|]. split; [done|]. exists e.
        split; [by apply list_elem_of_further|done].
      * intros e [->|He]%elem_of_cons Hfe; [|by apply Hall].
        destruct Hskip as [Hnf|Hin]; [done|]. apply elem_of_union. by left.
Qed.

End pathfinder.

Section search.

Context (start target : coord) (snake_body obs : list coord).

Definition neighbour (c n : coord) : Prop :=
  ∃ d, d ∈ DIRECTIONS ∧ n = step_to c d.

(** Paths as the queue holds them: [start] first, each further cell a free
    neighbour of the one before it. *)
Inductive walk : list coord → Prop :=
  | walk_start : walk [start]
  | walk_snoc w c n :
      walk w → last w = Some c → neighbour c n → free snake_body obs n →
      walk (w ++ [n]).

Definition reaches (w : list coord) (c : coord) : Prop :=
  walk w ∧ last w = Some c.

(** What the result of the search has to satisfy. *)
Definition bfs_post (res : list coord) : Prop :=
  (res = [] ∧ ¬ ∃ w, reaches w target) ∨
  (reaches (start :: res) target ∧ NoDup (start :: res) ∧
   ∀ w, reaches w target → (length (start :: res) ≤ length w)%nat).

(** Loop invariant.  The queue is [Qa ++ Qb]: paths of [d] cells followed
    by paths of [d + 1] cells. *)
Record bfs_inv (d : nat) (Qa Qb : list (list coord)) (V : gset coord) : Prop := {
  inv_depth : (1 ≤ d)%nat;
  inv_walk : ∀ q, q ∈ Qa ++ Qb → walk q;
  inv_len_a : ∀ q, q ∈ Qa → length q = d;
  inv_len_b : ∀ q, q ∈ Qb → length q = S d;
  inv_cells : ∀ q c, q ∈ Qa ++ Qb → c ∈ q → c ∈ V;
  inv_nodup : ∀ q, q ∈ Qa ++ Qb → NoDup q;
  inv_level : ∀ w c, walk w → (length w ≤ d)%nat → last w = Some c → c ∈ V;
  inv_short : ∀ q w c, q ∈ Qa ++ Qb → last q = Some c → walk w → last w = Some c →
                (length q ≤ length w)%nat;
  inv_done : ∀ v, v ∈ V →
               (∃ q, q ∈ Qa ++ Qb ∧ last q = Some v) ∨
               (v ≠ target ∧ ∀ n, neighbour v n → free snake_body obs n → n ∈ V)
}.

Lemma walk_head w : walk w → head w = Some start.
Proof.
  induction 1 as [|w c n Hw IH Hl Hn Hf]; [done|].
  destruct w; [done|]. done.
Qed.

Lemma walk_last w : walk w → ∃ c, last w = Some c.
Proof.
  destruct 1 as [|w c n Hw Hl Hn Hf]; [by exists start|].
  exists n. apply last_snoc.
Qed.

Lemma walk_length w : walk w → (1 ≤ length w)%nat.
Proof.
  destruct 1; [done|]. rewrite length_app. simpl. lia.
Qed.

Lemma walk_short w : walk w → (length w ≤ 1)%nat → w = [start].
Proof.
  destruct 1 as [|w c n Hw Hl Hn Hf]; [done|].
  rewrite length_app. simpl. pose proof (walk_length w Hw). lia.
Qed.

Lemma walk_long w :
  walk w → (2 ≤ length w)%nat →
  ∃ w' c n, w = w' ++ [n] ∧ walk w' ∧ last w' = Some c ∧
            neighbour c n ∧ free snake_body obs n.
Proof.
  destruct 1 as [|w c n Hw Hl Hn Hf]; [simpl; lia|].
  intros _. by exists w, c, n.
Qed.

Lemma walk_tail q : walk q → q = start :: tail q.
Proof.
  intros Hq. apply walk_head in Hq. destruct q; [done|].
  simpl in *. congruence.
Qed.

Lemma bfs_inv_init : bfs_inv 1 [[start]] [] {[start]}.
Proof.
  split.
  - done.
  - intros q ->%list_elem_of_singleton. constructor.
  - by intros q ->%list_elem_of_singleton.
  - intros q Hq. by apply elem_of_nil in Hq.
  - intros q c ->%list_elem_of_singleton ->%list_elem_of_singleton.
    by apply elem_of_singleton.
  - intros q ->%list_elem_of_singleton. apply NoDup_singleton.
  - intros w c Hw Hlen Hl. rewrite (walk_short w Hw Hlen) in Hl.
    injection Hl as <-. by apply elem_of_singleton.
  - intros q w c ->%list_elem_of_singleton _ Hw _. by apply walk_length.
  - intros v ->%elem_of_singleton. left. exists [start].
    split; [apply list_elem_of_here|done].
Qed.

Lemma bfs_inv_level_up d Qb V : bfs_inv d [] Qb V → bfs_inv (S d) Qb [] V.
Proof.
  intros [Hd Hwalk _ Hlen Hcells Hnd Hlevel Hshort Hdone]. simpl in *.
  split; rewrite ?app_nil_r; try done.
  - lia.
  - intros q Hq. by apply elem_of_nil in Hq.
  - intros w c Hw Hlen' Hl.
    destruct (decide (length w ≤ d)%nat) as [Hle|Hgt]; [by eapply Hlevel|].
    destruct (walk_long w Hw) as (w' & c' & n & -> & Hw' & Hl' & Hn & Hf); [lia|].
    rewrite last_snoc in Hl. injection Hl as ->.
    rewrite length_app in Hlen', Hgt. simpl in *.
    assert (c' ∈ V) as Hc' by (eapply Hlevel; [done|lia|done]).
    destruct (Hdone c' Hc') as [(q & Hq & Hlq)|[_ Hnb]]; [|by apply Hnb].
    specialize (Hshort q w' c' Hq Hlq Hw' Hl'). specialize (Hlen q Hq). lia.
Qed.

Lemma bfs_inv_exhausted d V : bfs_inv d [] [] V → ¬ ∃ w, reaches w target.
Proof.
  intros [Hd _ _ _ _ _ Hlevel _ Hdone]. simpl in *.
  assert (∀ v, v ∈ V → v ≠ target ∧
            ∀ n, neighbour v n → free snake_body obs n → n ∈ V) as Hclosed.
  { intros v Hv. destruct (Hdone v Hv) as [(q & Hq & _)|?]; [|done].
    by apply elem_of_nil in Hq. }
  assert (∀ w, walk w → ∀ c, last w = Some c → c ∈ V) as Hall.
  { induction 1 as [|w c n Hw IH Hl Hn Hf]; intros c' Hc'.
    - injection Hc' as <-. apply (Hlevel [start]); [constructor|simpl; lia|done].
    - rewrite last_snoc in Hc'. injection Hc' as <-.
      destruct (Hclosed c (IH c Hl)) as [_ Hnb]. by apply Hnb. }
  intros (w & Hw & Hl). by destruct (Hclosed target (Hall w Hw target Hl)).
Qed.

Lemma bfs_inv_found d p Qa Qb V :
  bfs_inv d (p :: Qa) Qb V → last p = Some target → bfs_post (tail p).
Proof.
  intros [_ Hwalk _ _ _ Hnd _ Hshort _] Hl.
  assert (p ∈ (p :: Qa) ++ Qb) as Hp by apply list_elem_of_here.
  right. rewrite <- (walk_tail p (Hwalk p Hp)).
  split; [split; [by apply Hwalk|done]|]. split; [by apply Hnd|].
  intros w [Hw Hlw]. by eapply Hshort.
Qed.

Lemma bfs_inv_step d p c Qa Qb V ns :
  bfs_inv d (p :: Qa) Qb V → last p = Some c → c ≠ target →
  (∀ n, n ∈ ns → (n ∉ V) ∧ free snake_body obs n ∧
                  ∃ dir, dir ∈ DIRECTIONS ∧ n = step_to c dir) →
  (∀ dir, dir ∈ DIRECTIONS → free snake_body obs (step_to c dir) →
     step_to c dir ∈ V ∪ list_to_set ns) →
  bfs_inv d Qa (Qb ++ map (λ n, p ++ [n]) ns) (V ∪ list_to_set ns).
Proof.
  intros [Hd Hwalk Hlena Hlenb Hcells Hnd Hlevel Hshort Hdone] Hl Hc Hnew Hall.
  assert (p ∈ (p :: Qa) ++ Qb) as Hp by apply list_elem_of_here.
  assert (∀ q, q ∈ Qa ++ Qb ++ map (λ n, p ++ [n]) ns →
            q ∈ (p :: Qa) ++ Qb ∨ ∃ n, n ∈ ns ∧ q = p ++ [n]) as Hmem.
  { intros q [Hq|[Hq|Hq]%elem_of_app]%elem_of_app.
    - left. apply elem_of_app. left. by apply list_elem_of_further.
    - left. apply elem_of_app. by right.
    - right. apply list_elem_of_fmap in Hq as (n & -> & Hn). eauto. }
  split.
  - done.
  - intros q [Hq|(n & Hn & ->)]%Hmem; [by apply Hwalk|].
    destruct (Hnew n Hn) as (_ & Hf & dir & Hdir & ->).
    eapply walk_snoc; [by apply Hwalk|done| |done]. by exists dir.
  - intros q Hq. apply Hlena. by apply list_elem_of_further.
  - intros q [Hq|Hq]%elem_of_app; [by apply Hlenb|].
    apply list_elem_of_fmap in Hq as (n & -> & Hn).
    rewrite length_app. simpl. rewrite (Hlena p); [lia|apply list_elem_of_here].
  - intros q e [Hq|(n & Hn & ->)]%Hmem He.
    + apply elem_of_union. left. by eapply Hcells.
    + apply elem_of_app in He as [He| ->%list_elem_of_singleton].
      * apply elem_of_union. left. by eapply Hcells.
      * apply elem_of_union. right. by apply elem_of_list_to_set.
  - intros q [Hq|(n & Hn & ->)]%Hmem; [by apply Hnd|].
    apply NoDup_app. split; [by apply Hnd|]. split; [|apply NoDup_singleton].
    intros e He ->%list_elem_of_singleton.
    destruct (Hnew n Hn) as (Hfresh & _). apply Hfresh. by eapply Hcells.
  - intros w e Hw Hlen He. apply elem_of_union. left. by eapply Hlevel.
  - intros q w e [Hq|(n & Hn & ->)]%Hmem Hlq Hw Hlw; [by eapply Hshort|].
    rewrite last_snoc in Hlq. injection Hlq as ->.
    rewrite length_app. simpl. rewrite (Hlena p); [|apply list_elem_of_here].
    destruct (decide (length w ≤ d)%nat) as [Hle|Hgt]; [|lia].
    destruct (Hnew e Hn) as (Hfresh & _). destruct Hfresh. by eapply Hlevel.
  - intros v [Hv|Hv]%elem_of_union.
    + destruct (Hdone v Hv) as [(q & Hq & Hlq)|[Hvt Hnb]].
      * apply elem_of_app in Hq as [[->|Hq]%elem_of_cons|Hq].
        -- right. rewrite Hl in Hlq. injection Hlq as ->. split; [done|].
           intros n (dir & Hdir & ->) Hf. by apply Hall.
        -- left. exists q. split; [|done]. apply elem_of_app. by left.
        -- left. exists q. split; [|done]. apply elem_of_app. right.
           apply elem_of_app. by left.
      * right. split; [done|]. intros n Hn Hf. apply elem_of_union. left.
        by apply Hnb.
    + apply elem_of_list_to_set in Hv. left. exists (p ++ [v]).
      split; [|apply last_snoc]. apply elem_of_app. right. apply elem_of_app. right.
      apply list_elem_of_fmap. by exists v.
Qed.

Lemma bfs_loop_correct fuel :
  ∀ d Qa Qb V,
    bfs_inv d Qa Qb V → (bfs_measure (Qa ++ Qb, V) < fuel)%nat →
    ∃ res, bfs_loop fuel target snake_body obs (Qa ++ Qb) V = Some res ∧ bfs_post res.
Proof.
  induction fuel as [|fuel IH]; intros d Qa Qb V Hinv Hm; [lia|].
  assert (∀ d p Qa Qb,
            bfs_inv d (p :: Qa) Qb V →
            (bfs_measure ((p :: Qa) ++ Qb, V) < S fuel)%nat →
            ∃ res, bfs_loop (S fuel) target snake_body obs ((p :: Qa) ++ Qb) V
                     = Some res ∧ bfs_post res) as Hpop.
  { clear d Qa Qb Hinv Hm. intros d p Qa Qb Hinv Hm.
    assert (walk p) as Hp by (apply (inv_walk _ _ _ _ Hinv), list_elem_of_here).
    destruct (walk_last p Hp) as [c Hc].
    cbn [bfs_loop app]. rewrite Hc. cbn [mbind option_bind].
    destruct (bool_decide (c = target)) eqn:E.
    - apply bool_decide_eq_true in E. subst c.
      eexists. split; [done|]. by eapply bfs_inv_found.
    - apply bool_decide_eq_false in E.
      destruct (expand_all snake_body obs p c DIRECTIONS (Qa ++ Qb) V)
        as (ns & Heq & Hnew & Hall).
      pose proof (expand_all_measure snake_body obs p c DIRECTIONS (Qa ++ Qb, V))
        as Hmeas.
      rewrite Heq in Hmeas. rewrite Heq. cbn [fst snd].
      rewrite <- app_assoc. apply (IH d).
      + by eapply bfs_inv_step.
      + rewrite app_assoc. unfold bfs_measure in *.
        cbn [fst snd app length] in *. lia. }
  destruct Qa as [|p Qa].
  - destruct Qb as [|p Qb].
    + exists []. split; [done|]. left. split; [done|]. by eapply bfs_inv_exhausted.
    + apply bfs_inv_level_up in Hinv.
      specialize (Hpop (S d) p Qb [] Hinv). rewrite app_nil_r in Hpop.
      by apply Hpop.
  - by apply (Hpop d).
Qed.

(** The search always returns, and what it returns meets [bfs_post]. *)
Lemma bfs_loop_total :
  ∃ res, bfs_pathfinding start target snake_body obs = Some res ∧ bfs_post res.
Proof.
  assert (bfs_measure ([[start]] ++ [], {[start]}) < bfs_fuel)%nat as Hm.
  { unfold bfs_measure. cbn [fst snd app length].
    pose proof size_grid_set as Hg.
    assert (size (grid_set ∖ {[start]}) ≤ size grid_set)%nat as Hs.
    { apply subseteq_size. intros x [Hx _]%elem_of_difference. exact Hx. }
    assert (bfs_fuel = 802%nat) as -> by reflexivity. lia. }
  pose proof (bfs_loop_correct bfs_fuel 1%nat [[start]] [] {[start]}
                bfs_inv_init Hm) as Hres.
  cbn [app] in Hres. exact Hres.
Qed.

End search.

(** ** Paths as the caller sees them *)

(** [route c r]: starting from [c], every cell of [r] is one plain
    (unwrapped) unit step away from the cell before it, inside the board
    and not blocked. *)
Fixpoint route (snake_body obs : list coord) (c : coord) (r : list coord) : Prop :=
  match r with
  | [] => True
  | n :: r' => neighbour c n ∧ free snake_body obs n ∧ route snake_body obs n r'
  end.

Lemma route_snoc snake_body obs c r e n :
  route snake_body obs c r → last (c :: r) = Some e → neighbour e n →
  free snake_body obs n → route snake_body obs c (r ++ [n]).
Proof.
  revert c. induction r as [|a r IH]; intros c Hr Hl Hn Hf.
  - injection Hl as ->. simpl. done.
  - destruct Hr as (Hca & Hfa & Hr). rewrite last_cons_cons in Hl.
    simpl. split; [done|]. split; [done|]. by apply IH.
Qed.

Lemma route_unsnoc snake_body obs c r n :
  route snake_body obs c (r ++ [n]) →
  route snake_body obs c r ∧ free snake_body obs n ∧
  ∃ e, last (c :: r) = Some e ∧ neighbour e n.
Proof.
  revert c. induction r as [|a r IH]; intros c.
  - simpl. intros (Hn & Hf & _). split; [done|]. split; [done|]. by exists c.
  - simpl. intros (Hca & Hfa & Hr). destruct (IH a Hr) as (Hr' & Hf & e & He & Hn).
    split; [done|]. split; [done|]. exists e. split; [exact He|done].
Qed.

Lemma walk_route start snake_body obs w :
  walk start snake_body obs w → ∃ r, w = start :: r ∧ route snake_body obs start r.
Proof.
  induction 1 as [|w c n Hw (r & -> & Hr) Hl Hn Hf].
  - by exists [].
  - exists (r ++ [n]). split; [done|]. by eapply route_snoc.
Qed.

Lemma route_walk start snake_body obs r :
  route snake_body obs start r → walk start snake_body obs (start :: r).
Proof.
  induction r as [|n r IH] using rev_ind; intros Hr; [constructor|].
  apply route_unsnoc in Hr as (Hr & Hf & e & He & Hn).
  change (start :: r ++ [n]) with ((start :: r) ++ [n]).
  eapply walk_snoc; [by apply IH|done..].
Qed.

Lemma free_spec snake_body obs c :
  free snake_body obs c ↔
  (0 ≤ c.1 < GRID_SIZE) ∧ (0 ≤ c.2 < GRID_SIZE) ∧
  (c ∉ obs) ∧ (c ∉ removelast snake_body).
Proof.
  unfold free, blocked. rewrite in_bounds_spec, orb_false_iff.
  rewrite !bool_decide_eq_false. tauto.
Qed.

Lemma route_free snake_body obs c r :
  route snake_body obs c r → Forall (free snake_body obs) r.
Proof.
  revert c. induction r as [|n r IH]; intros c; [by constructor|].
  intros (_ & Hf & Hr). constructor; [done|by eapply IH].
Qed.

(** C2.  The pathfinder always returns.  Its path moves by plain unit steps
    in the order of [DIRECTIONS], never wraps, stays inside
    [0, GRID_SIZE) x [0, GRID_SIZE), avoids obstacles and [snake_body[:-1]],
    repeats no cell and leaves out the start.  If the target can be reached
    at all the path ends on it and no route is shorter; if not, the path is
    empty.  A cell is enqueued only when it is in bounds, unvisited and not
    blocked. *)
Theorem bfs_pathfinding_correct (start target : coord) (snake_body obs : list coord) :
  ∃ path, bfs_pathfinding start target snake_body obs = Some path ∧
    route snake_body obs start path ∧
    Forall (λ c, (0 ≤ c.1 < GRID_SIZE) ∧ (0 ≤ c.2 < GRID_SIZE) ∧
                 (c ∉ obs) ∧ (c ∉ removelast snake_body)) path ∧
    NoDup (start :: path) ∧
    (path ≠ [] → last path = Some target) ∧
    (∀ r, route snake_body obs start r → last (start :: r) = Some target →
       last (start :: path) = Some target ∧ (length path ≤ length r)%nat) ∧
    ((¬ ∃ r, route snake_body obs start r ∧ last (start :: r) = Some target) →
       path = []) ∧
    (∀ p c Q V d,
       expand snake_body obs p c (Q, V) d = (Q, V) ∨
       (in_bounds (step_to c d) = true ∧ (step_to c d ∉ V) ∧
        blocked snake_body obs (step_to c d) = false ∧
        expand snake_body obs p c (Q, V) d =
          (Q ++ [p ++ [step_to c d]], V ∪ {[step_to c d]}))).
Proof.
  destruct (bfs_loop_total start target snake_body obs) as (path & Hbfs & Hpost).
  exists path. split; [done|].
  assert (route snake_body obs start path ∧ NoDup (start :: path) ∧
          (path ≠ [] → last path = Some target) ∧
          (∀ r, route snake_body obs start r → last (start :: r) = Some target →
             last (start :: path) = Some target ∧ (length path ≤ length r)%nat) ∧
          ((¬ ∃ r, route snake_body obs start r ∧ last (start :: r) = Some target) →
             path = [])) as (Hroute & Hnd & Hend & Hmin & Hnone).
  { destruct Hpost as [[-> Hno]|([Hw Hl] & Hnd & Hmin)].
    - split; [done|]. split; [apply NoDup_singleton|]. split; [done|].
      split; [|done]. intros r Hr Hlr. destruct Hno.
      exists (start :: r). split; [by apply route_walk|done].
    - destruct (walk_route _ _ _ _ Hw) as (r0 & [= <-] & Hr0).
      split; [done|]. split; [done|]. split; [|split].
      + intros Hne. destruct path as [|a path]; [done|].
        by rewrite last_cons_cons in Hl.
      + intros r Hr Hlr. split; [done|].
        specialize (Hmin (start :: r) (conj (route_walk _ _ _ _ Hr) Hlr)).
        simpl in Hmin. lia.
      + intros Hno. destruct Hno. by exists path. }
  split; [done|]. split.
  { eapply Forall_impl; [by eapply route_free|].
    intros c Hc. by apply free_spec. }
  split; [done|]. split; [done|]. split; [done|]. split; [done|].
  intros p c Q V d.
  destruct (expand_cases snake_body obs p c Q V d) as [([Hb Hk] & Hv & ->)|(_ & ->)].
  - by right.
  - by left.
Qed.

Lemma walk_end_free start snake_body obs w c :
  walk start snake_body obs w → last w = Some c → c = start ∨ free snake_body obs c.
Proof.
  destruct 1 as [|w e n Hw Hl Hn Hf]; intros Hc.
  - left. by injection Hc.
  - right. rewrite last_snoc in Hc. by injection Hc as <-.
Qed.

Lemma bfs_loop_hit fuel target snake_body obs p Q V :
  last p = Some target →
  bfs_loop (S fuel) target snake_body obs (p :: Q) V = Some (tail p).
Proof.
  intros Hl. cbn [bfs_loop]. rewrite Hl. cbn [mbind option_bind].
  by rewrite bool_decide_eq_true_2.
Qed.

(** C10.  With the target on the start cell the pathfinder returns the empty
    path at once; it returns the same empty path when the target is an
    obstacle and so cannot be reached. *)
Theorem bfs_start_is_target (p : coord) (snake_body obs : list coord) :
  bfs_pathfinding p p snake_body obs = Some [] ∧
  (∀ t, t ≠ p → t ∈ obs → bfs_pathfinding p t snake_body obs = Some []).
Proof.
  split.
  - unfold bfs_pathfinding.
    destruct bfs_fuel as [|fuel] eqn:Hfuel; [by vm_compute in Hfuel|].
    by apply bfs_loop_hit.
  - intros t Hne Hobs.
    destruct (bfs_loop_total p t snake_body obs) as (res & -> & Hpost).
    destruct Hpost as [[-> _]|([Hw Hl] & _)]; [done|].
    destruct (walk_end_free _ _ _ _ _ Hw Hl) as [->|[_ Hk]]; [done|].
    unfold blocked in Hk. apply orb_false_iff in Hk as [Hk _].
    by apply bool_decide_eq_false in Hk.
Qed.

Lemma expand_ext b1 o1 b2 o2 p c st d :
  (∀ n, blocked b1 o1 n = blocked b2 o2 n) →
  expand b1 o1 p c st d = expand b2 o2 p c st d.
Proof. intros H. unfold expand. by rewrite H. Qed.

Lemma expand_all_ext b1 o1 b2 o2 p c ds st :
  (∀ n, blocked b1 o1 n = blocked b2 o2 n) →
  foldl (expand b1 o1 p c) st ds = foldl (expand b2 o2 p c) st ds.
Proof.
  intros H. revert st. induction ds as [|d ds IH]; intros st; [done|].
  simpl. by rewrite (expand_ext b1 o1 b2 o2 p c st d H), IH.
Qed.

Lemma bfs_loop_ext b1 o1 b2 o2 fuel target Q V :
  (∀ n, blocked b1 o1 n = blocked b2 o2 n) →
  bfs_loop fuel target b1 o1 Q V = bfs_loop fuel target b2 o2 Q V.
Proof.
  intros H. revert Q V. induction fuel as [|fuel IH]; intros Q V; [done|].
  cbn [bfs_loop]. destruct Q as [|p Q]; [done|].
  destruct (last p) as [c|]; [|done]. cbn [mbind option_bind].
  destruct (bool_decide (c = target)); [done|].
  by rewrite (expand_all_ext b1 o1 b2 o2 p c DIRECTIONS (Q, V) H), IH.
Qed.

(** C9.  Two calls with the same start, the same target and the same set of
    blocked cells return, and return the same path, however the blocked
    cells are listed. *)
Theorem bfs_pathfinding_deterministic (start target : coord)
    (body1 obs1 body2 obs2 : list coord) :
  (∀ c, c ∈ obs1 ∨ c ∈ removelast body1 ↔ c ∈ obs2 ∨ c ∈ removelast body2) →
  ∃ path, bfs_pathfinding start target body1 obs1 = Some path ∧
          bfs_pathfinding start target body2 obs2 = Some path.
Proof.
  intros Hsame.
  assert (∀ n, blocked body1 obs1 n = blocked body2 obs2 n) as Hb.
  { intros n. unfold blocked. apply eq_iff_eq_true.
    rewrite !orb_true_iff, !bool_decide_eq_true. apply Hsame. }
  destruct (bfs_loop_total start target body1 obs1) as (path & Hp & _).
  exists path. split; [done|]. rewrite <- Hp. symmetry.
  unfold bfs_pathfinding. by apply bfs_loop_ext.
Qed.

Lemma bfs_pathfinding_deterministic_witness :
  ∃ path,
    bfs_pathfinding (2, 2) (3, 3) [(2, 2); (2, 3); (9, 9)] [(3, 2); (5, 5)] = Some path ∧
    bfs_pathfinding (2, 2) (3, 3) [(2, 3); (2, 2); (0, 0)] [(5, 5); (3, 2); (5, 5)]
      = Some path.
Proof.
  apply (bfs_pathfinding_deterministic (2, 2) (3, 3)).
  intros c. simpl. rewrite !elem_of_cons, !elem_of_nil. tauto.
Defined.

(** Among shortest paths the fixed order UP, DOWN, LEFT, RIGHT decides:
    going down first is found before going right first. *)
Example bfs_tie_break :
  bfs_pathfinding (2, 2) (3, 3) [] [] = Some [(2, 3); (3, 3)].
Proof. by vm_compute. Qed.

(** The 5 x 5 scenario of the specification, on the real board. *)
Example bfs_straight_line :
  bfs_pathfinding (2, 2) (2, 4) [(2, 2)] [] = Some [(2, 3); (2, 4)].
Proof. by vm_compute. Qed.

(** * Further properties of the engine *)

(** ** Invariants of the agent *)

Definition on_board (c : coord) : Prop :=
  0 ≤ c.1 < GRID_SIZE ∧ 0 ≤ c.2 < GRID_SIZE.

Lemma wrap_step_on_board hd d : on_board (wrap_step hd d).
Proof.
  unfold on_board, wrap_step. simpl.
  split; apply Z.mod_pos_bound; reflexivity.
Qed.

Lemma new_head_wrap_step s hd :
  Snake.get_head_position s = Some hd →
  Snake.new_head s = Some (wrap_step hd (Snake.direction s)).
Proof. apply new_head_eq. Qed.

Lemma apply_counters o s s' :
  Snake.apply o s = Some s' →
  Snake.length s = Snake.score s + 1 ∧ 0 ≤ Snake.score s →
  Snake.length s' = Snake.score s' + 1 ∧ 0 ≤ Snake.score s'.
Proof.
  destruct o as [d| |]; simpl.
  - intros [= <-]. by rewrite turn_length, turn_score.
  - unfold Snake.move. destruct (Snake.new_head s) as [nh|]; [|done]. simpl.
    destruct (_ && _); by intros [= <-].
  - intros [= <-]. simpl. lia.
Qed.

(** X1.  In every state the game can put the snake in, the body is not
    empty and no longer than [length], [length] is [score + 1], and [move]
    returns instead of raising. *)
Theorem reachable_counters (s : Snake.t) :
  Snake.reachable s →
  (∃ hd, Snake.get_head_position s = Some hd) ∧
  Z.of_nat (length (Snake.positions s)) ≤ Snake.length s ∧
  Snake.length s = Snake.score s + 1 ∧ 0 ≤ Snake.score s ∧
  (∃ b s', Snake.move s = Some (b, s')).
Proof.
  intros Hr. destruct (reachable_body_fits s Hr) as [Hpos Hle].
  assert (∃ hd, Snake.get_head_position s = Some hd) as [hd Hhd].
  { unfold Snake.get_head_position. destruct (Snake.positions s); [simpl in Hpos; lia|].
    by eexists. }
  split; [by exists hd|]. split; [done|].
  assert (Snake.length s = Snake.score s + 1 ∧ 0 ≤ Snake.score s) as [Hc Hs].
  { clear Hpos Hle hd Hhd. induction Hr as [d _|o s s' _ IH Happ]; [done|].
    by eapply apply_counters. }
  split; [done|]. split; [done|]. by eapply move_total.
Qed.

Lemma reachable_counters_witness :
  ∃ b s', Snake.move (Snake.mk 3 [(12, 10); (11, 10); (10, 10)] (1, 0) 2) = Some (b, s').
Proof.
  apply (reachable_counters (Snake.mk 3 [(12, 10); (11, 10); (10, 10)] (1, 0) 2)).
  apply (run_reachable [Snake.Grow; Snake.Advance; Snake.Grow; Snake.Advance]
           (Snake.initial RIGHT)).
  - apply Snake.reach_initial. apply (bool_decide_unpack _). reflexivity.
  - vm_compute. reflexivity.
Defined.

Lemma Forall_removelast {A : Type} (P : A → Prop) (l : list A) :
  Forall P l → Forall P (removelast l).
Proof.
  induction 1 as [|x l Hx Hl IH]; [constructor|].
  destruct l as [|y l]; [constructor|].
  change (removelast (x :: y :: l)) with (x :: removelast (y :: l)).
  by constructor.
Qed.

Lemma shift_Forall (P : coord → Prop) len nh body :
  P nh → Forall P body → Forall P (Snake.shift len nh body).
Proof.
  intros Hnh Hb. unfold Snake.shift.
  destruct (_ <? _); [apply Forall_removelast|]; by constructor.
Qed.

Lemma apply_on_board o s s' :
  Snake.apply o s = Some s' →
  Forall on_board (Snake.positions s) → Forall on_board (Snake.positions s').
Proof.
  destruct o as [d| |]; simpl.
  - intros [= <-]. by rewrite turn_positions.
  - unfold Snake.move, Snake.new_head.
    destruct (Snake.get_head_position s) as [hd|]; [|done]. simpl.
    destruct (Snake.direction s) as [x y] eqn:Hd. simpl.
    destruct (_ && _); intros [= <-]; [done|]. simpl. intros Hb.
    apply shift_Forall; [|done]. apply (wrap_step_on_board hd (x, y)).
  - by intros [= <-].
Qed.

(** X2.  Every body cell of a reachable snake lies on the board, whatever
    directions were passed to [turn]. *)
Theorem reachable_on_board (s : Snake.t) :
  Snake.reachable s →
  Forall (λ c, 0 ≤ c.1 < GRID_SIZE ∧ 0 ≤ c.2 < GRID_SIZE) (Snake.positions s).
Proof.
  induction 1 as [d _|o s s' _ IH Happ].
  - simpl. constructor; [|constructor]. by vm_compute.
  - by eapply (apply_on_board o s s').
Qed.

Lemma reachable_on_board_witness :
  Forall (λ c, 0 ≤ c.1 < GRID_SIZE ∧ 0 ≤ c.2 < GRID_SIZE)
         (Snake.positions (Snake.mk 1 [(11, 10)] (7, 0) 0)).
Proof.
  apply reachable_on_board.
  apply (run_reachable [Snake.Turn (7, 0); Snake.Advance; Snake.Advance; Snake.Advance]
           (Snake.initial LEFT)).
  - apply Snake.reach_initial. apply (bool_decide_unpack _). reflexivity.
  - vm_compute. reflexivity.
Defined.

Lemma move_false_positions s s' :
  Snake.move s = Some (false, s') →
  ∃ hd, Snake.get_head_position s = Some hd ∧
    (wrap_step hd (Snake.direction s) ∉ drop 2 (Snake.positions s)) ∧
    s' = {| Snake.length := Snake.length s;
            Snake.positions :=
              Snake.shift (Snake.length s) (wrap_step hd (Snake.direction s))
                          (Snake.positions s);
            Snake.direction := Snake.direction s;
            Snake.score := Snake.score s |}.
Proof.
  unfold Snake.move.
  destruct (Snake.get_head_position s) as [hd|] eqn:Hhd; last first.
  { unfold Snake.new_head. by rewrite Hhd. }
  rewrite (new_head_wrap_step s hd Hhd). simpl.
  destruct (_ && _) eqn:E; [done|]. intros [= <-].
  exists hd. split; [done|]. split; [|done].
  intros Hin. pose proof (drop_2_nonempty_length _ _ Hin) as Hlen.
  rewrite (bool_decide_eq_true_2 _ Hin), andb_true_r in E.
  apply Z.ltb_ge in E. lia.
Qed.

(** X3.  A collision-free [move] of a snake whose body fits its length
    leaves [min(|body| + 1, length)] cells: the old body behind the new
    head, without its last cell when the snake was already full length.
    After [grow] the very next such [move] keeps the whole old body. *)
Theorem move_length_law (s s' : Snake.t) :
  Snake.body_fits s → Snake.move s = Some (false, s') →
  Z.of_nat (length (Snake.positions s')) =
    Z.min (Z.of_nat (length (Snake.positions s)) + 1) (Snake.length s) ∧
  (∃ nh, Snake.positions s' =
           if bool_decide (Z.of_nat (length (Snake.positions s)) < Snake.length s)
           then nh :: Snake.positions s
           else nh :: removelast (Snake.positions s)) ∧
  (∀ s2, Z.of_nat (length (Snake.positions s)) = Snake.length s →
         Snake.move (Snake.grow s) = Some (false, s2) →
         ∃ nh, Snake.positions s2 = nh :: Snake.positions s ∧
               Z.of_nat (length (Snake.positions s2)) = Snake.length s2).
Proof.
  intros [Hpos Hle] (hd & Hhd & _ & ->)%move_false_positions. simpl.
  assert (∀ len nh,
            Z.of_nat (length (Snake.positions s)) ≤ len →
            Snake.shift len nh (Snake.positions s) =
              if bool_decide (Z.of_nat (length (Snake.positions s)) < len)
              then nh :: Snake.positions s
              else nh :: removelast (Snake.positions s)) as Hshift.
  { intros len nh Hlen. unfold Snake.shift.
    destruct (Snake.positions s) as [|b body] eqn:Hb; [simpl in Hpos; lia|].
    destruct (_ <? _) eqn:E.
    - apply Z.ltb_lt in E. rewrite bool_decide_eq_false_2; [done|].
      cbn [length] in *. lia.
    - apply Z.ltb_ge in E. rewrite bool_decide_eq_true_2; [done|].
      cbn [length] in *. lia. }
  split; [|split].
  - rewrite Hshift by done. case_bool_decide as Hlt.
    + cbn [length]. lia.
    + destruct (Snake.positions s) as [|b body]; [simpl in Hpos; lia|].
      cbn [length]. rewrite length_removelast_cons. cbn [length] in *. lia.
  - eexists. by apply Hshift.
  - intros s2 Hfull (hd2 & _ & _ & ->)%move_false_positions. simpl.
    eexists. rewrite Hshift by lia.
    rewrite bool_decide_eq_true_2 by lia. split; [done|].
    cbn [length]. lia.
Qed.

Lemma move_length_law_witness :
  ∃ nh, Snake.positions (Snake.mk 2 [(11, 10); (10, 10)] RIGHT 1) =
          nh :: removelast (Snake.positions (Snake.mk 2 [(10, 10); (9, 10)] RIGHT 1)).
Proof.
  destruct (move_length_law (Snake.mk 2 [(10, 10); (9, 10)] RIGHT 1)
              (Snake.mk 2 [(11, 10); (10, 10)] RIGHT 1)) as (_ & Hbody & _).
  - split; simpl; lia.
  - reflexivity.
  - exact Hbody.
Defined.

(** *** One turn per advance *)

(** The head is where the heading took it from the second cell. *)
Definition aligned (s : Snake.t) : Prop :=
  ∀ h b rest, Snake.positions s = h :: b :: rest → h = wrap_step b (Snake.direction s).

Definition tidy (s : Snake.t) : Prop :=
  Snake.body_fits s ∧ NoDup (Snake.positions s) ∧
  Forall on_board (Snake.positions s) ∧
  Snake.direction s ∈ DIRECTIONS ∧ aligned s.

(** Play with at most one [turn], to one of the four directions, before
    each collision-free [move]; [grow] at any time. *)
Inductive played : Snake.t → Prop :=
  | played_initial d : d ∈ DIRECTIONS → played (Snake.initial d)
  | played_grow s : played s → played (Snake.grow s)
  | played_move s s' : played s → Snake.move s = Some (false, s') → played s'
  | played_turn_move s d s' :
      played s → d ∈ DIRECTIONS →
      Snake.move (Snake.turn d s) = Some (false, s') → played s'.

Lemma directions_cases d :
  d ∈ DIRECTIONS → d = (0, -1) ∨ d = (0, 1) ∨ d = (-1, 0) ∨ d = (1, 0).
Proof.
  unfold DIRECTIONS, UP, DOWN, LEFT, RIGHT.
  rewrite !elem_of_cons, elem_of_nil. tauto.
Qed.

Lemma no_step_in_place h d : on_board h → d ∈ DIRECTIONS → wrap_step h d ≠ h.
Proof.
  intros [Hx Hy] Hd. destruct h as [x y].
  unfold wrap_step, GRID_SIZE in *. cbn [fst snd] in *.
  destruct (directions_cases d Hd) as [-> | [-> | [-> | -> ]]]; cbn [fst snd];
    intros [= Ex Ey]; revert Ex Ey; Z.to_euclidean_division_equations; lia.
Qed.

Lemma no_step_back b dir d :
  on_board b → dir ∈ DIRECTIONS → d ∈ DIRECTIONS → d ≠ negate dir →
  wrap_step (wrap_step b dir) d ≠ b.
Proof.
  intros [Hx Hy] Hdir Hd Hne. destruct b as [x y].
  unfold wrap_step, negate, GRID_SIZE in *. cbn [fst snd] in *.
  destruct (directions_cases dir Hdir) as [-> | [-> | [-> | -> ]]];
    destruct (directions_cases d Hd) as [-> | [-> | [-> | -> ]]]; cbn [fst snd] in *;
    try done; intros [= Ex Ey]; revert Ex Ey;
    Z.to_euclidean_division_equations; lia.
Qed.

Lemma removelast_sublist {A : Type} (l : list A) : removelast l `sublist_of` l.
Proof.
  induction l as [|x l IH]; [done|].
  destruct l as [|y l]; [by apply sublist_nil_l|].
  change (removelast (x :: y :: l)) with (x :: removelast (y :: l)).
  by apply sublist_skip.
Qed.

Lemma shift_sublist len nh body :
  Snake.shift len nh body `sublist_of` nh :: body.
Proof.
  unfold Snake.shift. destruct (_ <? _); [apply removelast_sublist|done].
Qed.

Lemma shift_two len nh hd rest h b rest' :
  Snake.shift len nh (hd :: rest) = h :: b :: rest' → h = nh ∧ b = hd.
Proof.
  unfold Snake.shift. destruct (_ <? _).
  - destruct rest as [|c rest]; [done|].
    change (removelast (nh :: hd :: c :: rest))
      with (nh :: hd :: removelast (c :: rest)).
    by intros [= <- <- _].
  - by intros [= <- <- _].
Qed.

Lemma tidy_initial d : d ∈ DIRECTIONS → tidy (Snake.initial d).
Proof.
  intros Hd. split; [|split; [|split; [|split]]].
  - split; simpl; lia.
  - apply NoDup_singleton.
  - constructor; [|constructor]. by vm_compute.
  - done.
  - intros h b rest. simpl. done.
Qed.

Lemma tidy_grow s : tidy s → tidy (Snake.grow s).
Proof.
  intros ([Hpos Hle] & Hnd & Hb & Hd & Hal).
  split; [|done]. split; simpl; [done|lia].
Qed.

(** A collision-free [move] restores tidiness provided the heading does
    not point at the second cell. *)
Lemma move_tidy s s' :
  Snake.body_fits s → NoDup (Snake.positions s) →
  Forall on_board (Snake.positions s) → Snake.direction s ∈ DIRECTIONS →
  (∀ h b rest, Snake.positions s = h :: b :: rest →
               wrap_step h (Snake.direction s) ≠ b) →
  Snake.move s = Some (false, s') → tidy s'.
Proof.
  intros Hfit Hnd Hb Hd Hback Hmove.
  assert (Snake.body_fits s') as Hfit'.
  { apply (apply_body_fits Snake.Advance s s' Hfit). simpl. by rewrite Hmove. }
  destruct (move_false_positions s s' Hmove) as (hd & Hhd & Hnin & ->).
  unfold Snake.get_head_position in Hhd.
  destruct (Snake.positions s) as [|hd0 rest] eqn:Hpos; [done|].
  injection Hhd as ->.
  assert (on_board hd) as Hhb by (by apply Forall_cons in Hb as [? _]).
  assert (wrap_step hd (Snake.direction s) ∉ hd :: rest) as Hfresh.
  { apply not_elem_of_cons. split; [by apply no_step_in_place|].
    destruct rest as [|b rest']; [apply not_elem_of_nil|].
    apply not_elem_of_cons. split; [by eapply Hback|done]. }
  split; [done|]. simpl. split; [|split; [|split]].
  - eapply sublist_NoDup; [|apply shift_sublist]. by apply NoDup_cons.
  - apply shift_Forall; [apply wrap_step_on_board|done].
  - done.
  - intros h b rest' Hshift. by apply shift_two in Hshift as [-> ->].
Qed.

Lemma tidy_turn_move s d s' :
  tidy s → d ∈ DIRECTIONS → Snake.move (Snake.turn d s) = Some (false, s') → tidy s'.
Proof.
  intros (Hfit & Hnd & Hb & Hdir & Hal) Hd Hmove.
  apply (move_tidy (Snake.turn d s)); try done.
  - unfold Snake.body_fits. by rewrite turn_positions, turn_length.
  - by rewrite turn_positions.
  - by rewrite turn_positions.
  - unfold Snake.turn. by destruct (_ && _).
  - rewrite turn_positions. intros h b rest Hpos.
    rewrite (Hal h b rest Hpos).
    assert (on_board b) as Hbb.
    { rewrite Hpos in Hb. apply Forall_cons in Hb as [_ Hb].
      by apply Forall_cons in Hb as [? _]. }
    destruct (decide (1 < Snake.length s ∧ d = negate (Snake.direction s)))
      as [[Hl He]|Hno].
    + rewrite turn_rejected by done.
      apply no_step_back; [done..|]. by apply direction_not_own_reversal.
    + rewrite turn_accepted by done.
      apply no_step_back; [done..|]. intros He. apply Hno. split; [|done].
      destruct Hfit as [_ Hle]. rewrite Hpos in Hle. cbn [length] in Hle. lia.
Qed.

Lemma tidy_move s s' : tidy s → Snake.move s = Some (false, s') → tidy s'.
Proof.
  intros (Hfit & Hnd & Hb & Hdir & Hal) Hmove.
  apply (move_tidy s); try done.
  intros h b rest Hpos. rewrite (Hal h b rest Hpos).
  assert (on_board b) as Hbb.
  { rewrite Hpos in Hb. apply Forall_cons in Hb as [_ Hb].
    by apply Forall_cons in Hb as [? _]. }
  apply no_step_back; [done..|]. by apply direction_not_own_reversal.
Qed.

Lemma played_tidy s : played s → tidy s.
Proof.
  induction 1 as [d Hd|s _ IH|s s' _ IH Hm|s d s' _ IH Hd Hm].
  - by apply tidy_initial.
  - by apply tidy_grow.
  - by eapply tidy_move.
  - by eapply tidy_turn_move.
Qed.

(** X4.  When at most one [turn], to one of the four directions, comes
    before each collision-free [move], the body never holds a cell twice,
    and the head is always one wrapped step of the heading away from the
    second cell. *)
Theorem played_body_distinct (s : Snake.t) :
  played s →
  NoDup (Snake.positions s) ∧
  (∀ h b rest, Snake.positions s = h :: b :: rest →
     h = ((b.1 + (Snake.direction s).1) `mod` GRID_SIZE,
          (b.2 + (Snake.direction s).2) `mod` GRID_SIZE)).
Proof.
  intros (_ & Hnd & _ & _ & Hal)%played_tidy. split; [done|]. apply Hal.
Qed.

Lemma played_body_distinct_witness :
  NoDup (Snake.positions (Snake.mk 2 [(11, 9); (11, 10)] UP 1)).
Proof.
  apply played_body_distinct.
  apply (played_turn_move (Snake.mk 2 [(11, 10); (10, 10)] RIGHT 1) UP).
  - apply (played_move (Snake.grow (Snake.initial RIGHT))).
    + apply played_grow, played_initial. apply (bool_decide_unpack _). reflexivity.
    + vm_compute. reflexivity.
  - apply (bool_decide_unpack _). reflexivity.
  - vm_compute. reflexivity.
Defined.

(** X5.  A move that the survival scan calls safe and that [turn] accepts
    is carried out by the next [move]: no collision is reported and the new
    head is the wrapped neighbour, off the body and off the obstacles. *)
Theorem safe_turn_then_move (s : Snake.t) (obs : list coord) (hd d : coord) :
  Snake.get_head_position s = Some hd → safe_move s obs hd d → ¬ is_reversal s d →
  ∃ s', Snake.move (Snake.turn d s) = Some (false, s') ∧
        Snake.get_head_position s' = Some (wrap_step hd d) ∧
        (wrap_step hd d ∉ obs) ∧ (wrap_step hd d ∉ Snake.positions s).
Proof.
  intros Hhd [Hbody Hobs] Hrev.
  assert (Snake.get_head_position (Snake.turn d s) = Some hd) as Hhd'.
  { unfold Snake.get_head_position. by rewrite turn_positions. }
  assert (Snake.direction (Snake.turn d s) = d) as Hdir by by apply turn_accepted.
  pose proof (new_head_wrap_step _ _ Hhd') as Hnh. rewrite Hdir in Hnh.
  assert (∃ s', Snake.move (Snake.turn d s) = Some (false, s')) as [s' Hmove].
  { unfold Snake.move. rewrite Hnh. simpl. rewrite turn_positions.
    rewrite bool_decide_eq_false_2, andb_false_r; [by eexists|].
    intros Hin. by apply Hbody, (subseteq_drop 2). }
  exists s'. split; [done|]. split; [|done].
  by rewrite (move_head _ _ Hmove).
Qed.

Lemma safe_turn_then_move_witness :
  ∃ s', Snake.move (Snake.turn UP (Snake.mk 2 [(10, 0); (9, 0)] RIGHT 1)) = Some (false, s') ∧
        Snake.get_head_position s' = Some (wrap_step (10, 0) UP) ∧
        (wrap_step (10, 0) UP ∉ [(11, 0)]) ∧
        (wrap_step (10, 0) UP ∉ Snake.positions (Snake.mk 2 [(10, 0); (9, 0)] RIGHT 1)).
Proof.
  apply (safe_turn_then_move (Snake.mk 2 [(10, 0); (9, 0)] RIGHT 1) [(11, 0)] (10, 0) UP).
  - reflexivity.
  - split; apply (bool_decide_unpack _); reflexivity.
  - intros [_ He]. discriminate He.
Defined.

(** ** Placement of obstacles and goal *)

Lemma get_random_position_more_fuel fuel extra body obs fp r p r' :
  get_random_position fuel body obs fp r = Some (p, r') →
  get_random_position (fuel + extra) body obs fp r = Some (p, r').
Proof.
  revert r. induction fuel as [|fuel IH]; intros r; [done|].
  cbn [get_random_position Nat.add].
  destruct (randint 0 (GRID_SIZE - 1) r) as [px r1].
  destruct (randint 0 (GRID_SIZE - 1) r1) as [py r2].
  destruct (_ && _); [done|apply IH].
Qed.

(** X6.  The first goal is placed on the board, off the body and off the
    obstacles, and giving the sampling loop more attempts than it needed
    changes neither the cell nor the randomness consumed. *)
Theorem food_init_spec (fuel : nat) (snake_body obs : list coord) (r r' : rng)
    (f : Food.t) :
  Food.init fuel snake_body obs r = Some (f, r') →
  (0 ≤ (Food.position f).1 < GRID_SIZE ∧ 0 ≤ (Food.position f).2 < GRID_SIZE) ∧
  (Food.position f ∉ snake_body) ∧ (Food.position f ∉ obs) ∧
  (∀ extra, Food.init (fuel + extra) snake_body obs r = Some (f, r')).
Proof.
  unfold Food.init.
  destruct (get_random_position fuel _ _ _ _) as [[p r1]|] eqn:E; [|done].
  simpl. intros [= <- <-]. simpl.
  pose proof (get_random_position_sound _ _ _ _ _ _ _ E) as (Hb & Ho & _ & Hin).
  split; [by apply in_bounds_spec|]. split; [done|]. split; [done|].
  intros extra. by rewrite (get_random_position_more_fuel _ extra _ _ _ _ _ _ E).
Qed.

Lemma food_init_spec_witness :
  Food.position (Food.mk (2, 3)) ∉ [(0, 1)].
Proof.
  apply (food_init_spec 2 [(0, 1)] [(7, 7)] Z.of_nat
           (λ n, Z.of_nat (S (S (S (S n))))) (Food.mk (2, 3))).
  reflexivity.
Defined.

Lemma safe_spawn_area_spec hd p :
  p ∈ Obstacles.safe_spawn_area_for_snake hd ↔
  (-2 ≤ p.1 - hd.1 ≤ 2) ∧ (-2 ≤ p.2 - hd.2 ≤ 2).
Proof.
  unfold Obstacles.safe_spawn_area_for_snake. split.
  - intros (dx & (dy & ->%list_elem_of_singleton & Hdy%elem_of_seqZ)%list_elem_of_bind
              & Hdx%elem_of_seqZ)%list_elem_of_bind.
    simpl. lia.
  - intros [Hx Hy]. apply list_elem_of_bind. exists (p.1 - hd.1).
    split; [|apply elem_of_seqZ; lia].
    apply list_elem_of_bind. exists (p.2 - hd.2).
    split; [|apply elem_of_seqZ; lia].
    apply list_elem_of_singleton. destruct p as [x y]. simpl. f_equal; lia.
Qed.

Lemma place_spec n fuel forbidden placed r ps r' :
  Obstacles.place n fuel forbidden placed r = Some (ps, r') →
  ∃ new, ps = placed ++ new ∧ length new = n ∧
    Forall (λ p, (p ∉ forbidden) ∧ in_bounds p = true) new ∧
    (NoDup placed → NoDup ps).
Proof.
  revert placed r. induction n as [|n IH]; intros placed r.
  - simpl. intros [= <- <-]. exists []. rewrite app_nil_r. by repeat split.
  - cbn [Obstacles.place].
    destruct (get_random_position fuel forbidden placed None r) as [[pos r1]|] eqn:E;
      [|done].
    cbn [mbind option_bind]. intros Hrest.
    destruct (IH _ _ Hrest) as (new & -> & Hlen & Hall & Hnd).
    apply get_random_position_sound in E as (Hf & Hp & _ & Hin).
    exists (pos :: new). split; [by rewrite <- app_assoc|].
    split; [simpl; by rewrite Hlen|]. split; [by constructor|].
    intros Hpl. apply Hnd. apply NoDup_app. split; [done|].
    split; [|apply NoDup_singleton].
    by intros x Hx ->%list_elem_of_singleton.
Qed.

(** X7.  [generate_obstacles] raises on an empty body.  When it returns, it
    has replaced the old obstacles by exactly [num_obstacles] distinct cells
    of the board, none on the body and none within two cells (in either
    coordinate) of the head. *)
Theorem generate_obstacles_spec (fuel : nat) (o o' : Obstacles.t)
    (snake_body : list coord) (r r' : rng) :
  Obstacles.generate_obstacles fuel o [] r = None ∧
  (Obstacles.generate_obstacles fuel o snake_body r = Some (o', r') →
   Obstacles.num_obstacles o' = Obstacles.num_obstacles o ∧
   length (Obstacles.positions o') = Z.to_nat (Obstacles.num_obstacles o) ∧
   NoDup (Obstacles.positions o') ∧
   ∃ hd, head snake_body = Some hd ∧
     Forall (λ p, (0 ≤ p.1 < GRID_SIZE ∧ 0 ≤ p.2 < GRID_SIZE) ∧
                  (p ∉ snake_body) ∧
                  ¬ ((-2 ≤ p.1 - hd.1 ≤ 2) ∧ (-2 ≤ p.2 - hd.2 ≤ 2)))
            (Obstacles.positions o')).
Proof.
  split; [done|]. unfold Obstacles.generate_obstacles.
  destruct (head snake_body) as [hd|]; [|done]. cbn [mbind option_bind].
  destruct (Obstacles.place _ _ _ _ _) as [[ps r1]|] eqn:E; [|done].
  cbn [mbind option_bind]. intros [= <- <-]. simpl.
  destruct (place_spec _ _ _ _ _ _ _ E) as (new & -> & Hlen & Hall & Hnd).
  simpl. split; [done|]. split; [done|]. split; [apply Hnd, NoDup_nil_2|].
  exists hd. split; [done|].
  eapply Forall_impl; [exact Hall|]. intros p [Hf Hin]. simpl in *.
  apply not_elem_of_app in Hf as [Hbody Hsafe].
  split; [by apply in_bounds_spec|]. split; [done|].
  intros Hnear. by apply Hsafe, safe_spawn_area_spec.
Qed.

Lemma generate_obstacles_spec_witness :
  NoDup (Obstacles.positions (Obstacles.mk [(0, 1); (2, 3)] 2)).
Proof.
  apply (proj2 (generate_obstacles_spec 3 (Obstacles.mk [(5, 5)] 2)
                  (Obstacles.mk [(0, 1); (2, 3)] 2) [(10, 10)] Z.of_nat
                  (λ n, Z.of_nat (S (S (S (S n))))))).
  reflexivity.
Defined.

Lemma choice_sound {A : Type} (l : list A) (r r' : rng) (x : A) :
  choice l r = Some (x, r') → x ∈ l.
Proof.
  unfold choice, rng_next. simpl.
  destruct (l !! _) as [y|] eqn:E; [|done].
  intros [= <- _]. by eapply list_elem_of_lookup_2.
Qed.

(** X8.  A restart that returns gives a one-cell snake at the centre with
    one of the four headings, score 0, the flag cleared and the plan
    emptied, and keeps the autopilot switch; the new obstacles are
    [num_obstacles] distinct cells at least three cells from the centre in
    some coordinate; the new goal is off the snake, off the obstacles and
    not where the old goal was. *)
Theorem reset_game_state_spec (fuel : nat) (g g' : Game) (r r' : rng) :
  reset_game_state fuel g r = Some (g', r') →
  (∃ d, d ∈ DIRECTIONS ∧ snake g' = Snake.initial d) ∧
  game_over g' = false ∧ autopilot_path g' = [] ∧
  autopilot_on g' = autopilot_on g ∧
  Obstacles.num_obstacles (obstacles g') = Obstacles.num_obstacles (obstacles g) ∧
  length (Obstacles.positions (obstacles g')) =
    Z.to_nat (Obstacles.num_obstacles (obstacles g)) ∧
  NoDup (Obstacles.positions (obstacles g')) ∧
  Forall (λ p, ¬ ((-2 ≤ p.1 - GRID_SIZE `div` 2 ≤ 2) ∧
                  (-2 ≤ p.2 - GRID_SIZE `div` 2 ≤ 2)))
         (Obstacles.positions (obstacles g')) ∧
  (Food.position (food g') ∉ Snake.positions (snake g')) ∧
  (Food.position (food g') ∉ Obstacles.positions (obstacles g')) ∧
  Food.position (food g') ≠ Food.position (food g).
Proof.
  unfold reset_game_state, Snake.reset.
  destruct (choice DIRECTIONS r) as [[d r0]|] eqn:Ec; [|done].
  cbn [mbind option_bind Snake.positions].
  destruct (Obstacles.generate_obstacles _ _ _ _) as [[o r2]|] eqn:Eo; [|done].
  cbn [mbind option_bind].
  destruct (Food.randomize_position _ _ _ _ _) as [[f r3]|] eqn:Ef; [|done].
  cbn [mbind option_bind]. intros [= <- <-]. simpl.
  destruct (proj2 (generate_obstacles_spec _ _ _ _ _ _) Eo)
    as (Hnum & Hlen & Hnd & hd & [= <-] & Hall).
  apply randomize_position_fresh in Ef as (Hold & Hobs & Hbody).
  split; [exists d; split; [by eapply choice_sound|done]|].
  do 6 (split; [done|]). split; [|done].
  eapply Forall_impl; [exact Hall|]. intros p (_ & _ & Hfar). exact Hfar.
Qed.

Lemma reset_game_state_spec_witness :
  let g := mkGame (Snake.mk 3 [(4, 4); (3, 4); (2, 4)] RIGHT 2)
                  (Obstacles.mk [(4, 4)] 2) (Food.mk (6, 7)) true true [(5, 4)] in
  ∃ g', game_over g' = false ∧ autopilot_path g' = [] ∧ autopilot_on g' = true ∧
        Food.position (food g') ≠ (6, 7).
Proof.
  intros g.
  exists (mkGame (Snake.initial DOWN) (Obstacles.mk [(2, 3); (4, 5)] 2)
                 (Food.mk (8, 9)) false true []).
  destruct (reset_game_state_spec 3 g
              (mkGame (Snake.initial DOWN) (Obstacles.mk [(2, 3); (4, 5)] 2)
                      (Food.mk (8, 9)) false true [])
              (λ n, Z.of_nat (S n)) (λ n, Z.of_nat (10 + n)))
    as (_ & Hover & Hpath & Hauto & _ & _ & _ & _ & _ & _ & Hfood).
  - reflexivity.
  - repeat split; assumption.
Defined.

(** ** Events and the autopilot *)

Lemma handle_event_running fuel ev g r :
  game_over g = false →
  ∃ fl g', handle_event fuel ev g r = Some (fl, g', r) ∧
    game_over g' = false ∧ obstacles g' = obstacles g ∧ food g' = food g ∧
    Snake.positions (snake g') = Snake.positions (snake g) ∧
    Snake.length (snake g') = Snake.length (snake g) ∧
    Snake.score (snake g') = Snake.score (snake g) ∧
    (autopilot_on g = true → ev ≠ KEYDOWN K_a → g' = g).
Proof.
  intros Hover. destruct ev as [|k|]; simpl.
  - exists Return, g. by repeat split.
  - rewrite Hover.
    assert (∀ s, Snake.positions (manual_turn k s) = Snake.positions s ∧
                 Snake.length (manual_turn k s) = Snake.length s ∧
                 Snake.score (manual_turn k s) = Snake.score s) as Hturn.
    { intros s. destruct k; simpl;
        by rewrite ?turn_positions, ?turn_length, ?turn_score. }
    destruct (Hturn (snake g)) as (Hp & Hl & Hs).
    destruct (autopilot_on g) eqn:Hauto.
    + destruct k; eexists _, _; (split; [reflexivity|]); simpl;
        repeat split; try done; by destruct g; simpl in *; subst.
    + destruct k; eexists _, _; (split; [reflexivity|]); simpl;
        repeat split; done.
  - exists Continue, g. by repeat split.
Qed.

(** X9.  While the game is running, the events of a frame draw no
    randomness and can change only the heading, the autopilot switch and the
    plan: flag, obstacles, goal, body, length and score stay.  With the
    autopilot on and no press of [a], they change nothing at all, so the
    arrow keys are ignored. *)
Theorem handle_events_running (fuel : nat) (evs : list event) (g : Game) (r : rng) :
  game_over g = false →
  ∃ fl g', handle_events fuel evs g r = Some (fl, g', r) ∧
    game_over g' = false ∧ obstacles g' = obstacles g ∧ food g' = food g ∧
    Snake.positions (snake g') = Snake.positions (snake g) ∧
    Snake.length (snake g') = Snake.length (snake g) ∧
    Snake.score (snake g') = Snake.score (snake g) ∧
    (autopilot_on g = true → (KEYDOWN K_a ∉ evs) → g' = g).
Proof.
  revert g. induction evs as [|ev evs IH]; intros g Hover.
  - exists Continue, g. by repeat split.
  - destruct (handle_event_running fuel ev g r Hover)
      as (fl & g1 & Hev & Hover1 & Ho & Hf & Hp & Hl & Hs & Hsame).
    cbn [handle_events]. rewrite Hev. cbn [mbind option_bind].
    assert (autopilot_on g = true → (KEYDOWN K_a ∉ ev :: evs) → g1 = g) as Hsame1.
    { intros Hauto [Hne _]%not_elem_of_cons. apply Hsame; [done|congruence]. }
    destruct fl.
    + destruct (IH g1 Hover1) as (fl' & g2 & -> & Hover2 & Ho2 & Hf2 & Hp2 & Hl2 & Hs2 & Hsame2).
      exists fl', g2. split; [done|]. split; [done|].
      split; [congruence|]. split; [congruence|]. split; [congruence|].
      split; [congruence|]. split; [congruence|].
      intros Hauto Hno. pose proof (Hsame1 Hauto Hno) as ->.
      apply Hsame2; [done|]. by apply not_elem_of_cons in Hno as [_ ?].
    + exists Return, g1. by repeat split.
Qed.

Lemma handle_events_running_witness :
  let g := mkGame (Snake.mk 3 [(4, 4); (3, 4); (2, 4)] RIGHT 2)
                  (Obstacles.mk [(9, 9)] 1) (Food.mk (7, 7)) false true [(5, 4)] in
  ∃ fl g', handle_events 5 [KEYDOWN K_UP; OTHER; KEYDOWN K_LEFT] g Z.of_nat
             = Some (fl, g', Z.of_nat) ∧ game_over g' = false.
Proof.
  intros g.
  destruct (handle_events_running 5 [KEYDOWN K_UP; OTHER; KEYDOWN K_LEFT] g Z.of_nat eq_refl)
    as (fl & g' & Hev & Hover & _).
  by exists fl, g'.
Defined.

Lemma unwrap_delta_wrap x a :
  0 ≤ x < GRID_SIZE → -1 ≤ a ≤ 1 →
  unwrap_delta ((x + a) `mod` GRID_SIZE - x) = a.
Proof.
  unfold unwrap_delta, GRID_SIZE. intros Hx Ha.
  destruct (Z.ltb_spec 1 ((x + a) `mod` 20 - x)) as [H1|H1];
    [|destruct (Z.ltb_spec ((x + a) `mod` 20 - x) (-1)) as [H2|H2]];
    revert H1; try revert H2; Z.to_euclidean_division_equations; lia.
Qed.

Lemma unwrap_delta_unit a : -1 ≤ a ≤ 1 → unwrap_delta a = a.
Proof.
  unfold unwrap_delta. intros Ha.
  destruct (Z.ltb_spec 1 a); [lia|]. destruct (Z.ltb_spec a (-1)); [lia|done].
Qed.

Lemma direction_unit d : d ∈ DIRECTIONS → -1 ≤ d.1 ≤ 1 ∧ -1 ≤ d.2 ≤ 1.
Proof.
  intros Hd. destruct (directions_cases d Hd) as [-> | [-> | [-> | -> ]]]; simpl; lia.
Qed.

(** X10.  When the next cell of the plan is a wrap-around neighbour of the
    head in one of the four directions, also across an edge of the board,
    [follow] pops it and turns the snake to exactly that direction. *)
Theorem follow_wrapped_neighbour (g : Game) (hd d : coord) (rest : list coord) :
  Snake.get_head_position (snake g) = Some hd →
  0 ≤ hd.1 < GRID_SIZE ∧ 0 ≤ hd.2 < GRID_SIZE →
  d ∈ DIRECTIONS →
  autopilot_path g =
    ((hd.1 + d.1) `mod` GRID_SIZE, (hd.2 + d.2) `mod` GRID_SIZE) :: rest →
  follow g = Some (mkGame (Snake.turn d (snake g)) (obstacles g) (food g)
                          (game_over g) (autopilot_on g) rest).
Proof.
  intros Hhd [Hx Hy] Hd Hpath. unfold follow. rewrite Hpath, Hhd.
  cbn [mbind option_bind fst snd].
  destruct (direction_unit d Hd) as [Hdx Hdy].
  rewrite !unwrap_delta_wrap by done. by destruct d.
Qed.

Lemma follow_wrapped_neighbour_witness :
  let g := mkGame (Snake.mk 2 [(19, 5); (18, 5)] RIGHT 1)
                  (Obstacles.mk [] 0) (Food.mk (1, 5)) false true [(0, 5); (1, 5)] in
  follow g = Some (mkGame (Snake.turn RIGHT (snake g)) (obstacles g) (food g)
                          (game_over g) (autopilot_on g) [(1, 5)]).
Proof.
  intros g. apply (follow_wrapped_neighbour g (19, 5) RIGHT [(1, 5)]).
  - reflexivity.
  - by vm_compute.
  - apply (bool_decide_unpack _). reflexivity.
  - reflexivity.
Defined.

(** X11.  On a frame without a plan, when the pathfinder finds a path, its
    first cell is one plain step from the head in one of the four
    directions.  The autopilot calls [turn] with that direction, keeps the
    rest of the path as plan and draws no randomness.  The heading becomes
    that direction unless it is the exact reversal while [length > 1]: then
    [turn] ignores it and the snake stays as it was, although the cell has
    been popped from the plan. *)
Theorem autopilot_follows_path (g : Game) (r : rng) (hd n : coord) (rest : list coord) :
  autopilot_path g = [] →
  Snake.get_head_position (snake g) = Some hd →
  bfs_pathfinding hd (Food.position (food g)) (body_to_avoid_for_bfs (snake g))
                  (Obstacles.positions (obstacles g)) = Some (n :: rest) →
  ∃ d, d ∈ DIRECTIONS ∧ n = (hd.1 + d.1, hd.2 + d.2) ∧
    autopilot g r =
      Some (mkGame (Snake.turn d (snake g)) (obstacles g) (food g)
                   (game_over g) (autopilot_on g) rest, r) ∧
    (¬ (1 < Snake.length (snake g) ∧ d = negate (Snake.direction (snake g))) →
       Snake.direction (Snake.turn d (snake g)) = d) ∧
    (1 < Snake.length (snake g) ∧ d = negate (Snake.direction (snake g)) →
       Snake.turn d (snake g) = snake g).
Proof.
  intros Hpath Hhd Hbfs.
  destruct (bfs_loop_total hd (Food.position (food g)) (body_to_avoid_for_bfs (snake g))
              (Obstacles.positions (obstacles g))) as (res & Hres & Hpost).
  rewrite Hbfs in Hres. injection Hres as <-.
  destruct Hpost as [[? _]|([Hw _] & _)]; [done|].
  apply walk_route in Hw as (r0 & [= <-] & ((d & Hd & Hn) & _)).
  exists d. split; [done|]. split; [done|].
  split; [|split; [apply turn_accepted|intros [? ?]; by apply turn_rejected]].
  unfold autopilot, plan. rewrite Hpath, Hhd. cbn [mbind option_bind].
  rewrite Hbfs. cbn [mbind option_bind]. unfold follow.
  cbn [with_path autopilot_path snake]. rewrite Hhd. cbn [mbind option_bind].
  subst n. unfold step_to. cbn [fst snd].
  destruct (direction_unit d Hd) as [Hdx Hdy].
  replace (hd.1 + d.1 - hd.1) with d.1 by lia.
  replace (hd.2 + d.2 - hd.2) with d.2 by lia.
  rewrite !unwrap_delta_unit by done. by destruct d.
Qed.

Lemma autopilot_follows_path_witness :
  let g := mkGame (Snake.mk 1 [(2, 2)] RIGHT 0)
                  (Obstacles.mk [] 0) (Food.mk (2, 4)) false true [] in
  ∃ d, d ∈ DIRECTIONS ∧ (2, 3) = ((2, 2).1 + d.1, (2, 2).2 + d.2) ∧
    autopilot g Z.of_nat =
      Some (mkGame (Snake.turn d (snake g)) (obstacles g) (food g)
                   (game_over g) (autopilot_on g) [(2, 4)], Z.of_nat) ∧
    (¬ (1 < Snake.length (snake g) ∧ d = negate (Snake.direction (snake g))) →
       Snake.direction (Snake.turn d (snake g)) = d) ∧
    (1 < Snake.length (snake g) ∧ d = negate (Snake.direction (snake g)) →
       Snake.turn d (snake g) = snake g).
Proof.
  intros g. apply (autopilot_follows_path g Z.of_nat (2, 2) (2, 3) [(2, 4)]).
  - reflexivity.
  - reflexivity.
  - by vm_compute.
Defined.

(** The path may start on the cell right behind the head, which the search
    does not block: the heading stays UP, the plan loses its first cell, and
    the snake moves away from the remaining plan. *)
Example autopilot_plan_through_neck :
  let g := mkGame (Snake.mk 3 [(2, 2); (2, 3); (2, 4)] UP 2)
                  (Obstacles.mk [] 0) (Food.mk (2, 5)) false true [] in
  autopilot g Z.of_nat =
    Some (mkGame (snake g) (obstacles g) (food g) false true [(2, 4); (2, 5)],
          Z.of_nat).
Proof. by vm_compute. Qed.

(** ** The simulation step *)

(** Everything of the game except the heading and the plan. *)
Definition same_but_heading (g g1 : Game) : Prop :=
  obstacles g1 = obstacles g ∧ food g1 = food g ∧
  game_over g1 = game_over g ∧ autopilot_on g1 = autopilot_on g ∧
  Snake.positions (snake g1) = Snake.positions (snake g) ∧
  Snake.length (snake g1) = Snake.length (snake g) ∧
  Snake.score (snake g1) = Snake.score (snake g).

Lemma plan_frame g r g1 r1 : plan g r = Some (g1, r1) → same_but_heading g g1.
Proof.
  unfold plan. destruct (autopilot_path g) as [|n rest].
  2:{ intros [= <- <-]. by repeat split. }
  destruct (Snake.get_head_position (snake g)) as [hd|]; [|done].
  cbn [mbind option_bind].
  destruct (bfs_pathfinding _ _ _ _) as [[|n rest]|]; [| |done]; cbn [mbind option_bind].
  - unfold safety_step.
    destruct (safety_intent _ _ _) as [[i r2]|]; [|done]. cbn [mbind option_bind].
    intros [= <- <-]. destruct i as [d|]; repeat split; simpl;
      by rewrite ?turn_positions, ?turn_length, ?turn_score.
  - intros [= <- <-]. by repeat split.
Qed.

Lemma follow_frame g g1 : follow g = Some g1 → same_but_heading g g1.
Proof.
  unfold follow. destruct (autopilot_path g) as [|n rest].
  { intros [= <-]. by repeat split. }
  destruct (Snake.get_head_position (snake g)) as [hd|]; [|done].
  cbn [mbind option_bind]. intros [= <-]. repeat split; simpl;
    by rewrite ?turn_positions, ?turn_length, ?turn_score.
Qed.

Lemma autopilot_frame g r g1 r1 :
  autopilot g r = Some (g1, r1) → same_but_heading g g1.
Proof.
  unfold autopilot. destruct (plan g r) as [[g0 r0]|] eqn:Ep; [|done].
  cbn [mbind option_bind]. destruct (follow g0) as [g2|] eqn:Ef; [|done].
  cbn [mbind option_bind]. intros [= <- <-].
  destruct (plan_frame _ _ _ _ Ep) as (? & ? & ? & ? & ? & ? & ?).
  destruct (follow_frame _ _ Ef) as (? & ? & ? & ? & ? & ? & ?).
  repeat split; congruence.
Qed.

Lemma move_counters s b s' :
  Snake.move s = Some (b, s') →
  Snake.length s' = Snake.length s ∧ Snake.score s' = Snake.score s.
Proof.
  unfold Snake.move. destruct (Snake.new_head s); [|done]. simpl.
  destruct (_ && _); by intros [= <- <-].
Qed.

(** X12.  A simulation step of a running game never touches the obstacles
    or the autopilot switch.  If it leaves the game running, the head is
    not on an obstacle.  Either the head is not on the goal, and goal,
    score and length stay; or the head is on the goal, score and length
    grow by one, the plan is dropped and the goal moves to another cell,
    off the body and off the obstacles. *)
Theorem update_running (fuel : nat) (g g' : Game) (r r' : rng) :
  game_over g = false → update fuel g r = Some (g', r') →
  obstacles g' = obstacles g ∧ autopilot_on g' = autopilot_on g ∧
  (game_over g' = false →
     ∀ hd, Snake.get_head_position (snake g') = Some hd →
           hd ∉ Obstacles.positions (obstacles g')) ∧
  ((Snake.get_head_position (snake g') ≠ Some (Food.position (food g)) ∧
    food g' = food g ∧
    Snake.score (snake g') = Snake.score (snake g) ∧
    Snake.length (snake g') = Snake.length (snake g)) ∨
   (Snake.get_head_position (snake g') = Some (Food.position (food g)) ∧
    Snake.score (snake g') = Snake.score (snake g) + 1 ∧
    Snake.length (snake g') = Snake.length (snake g) + 1 ∧
    autopilot_path g' = [] ∧
    Food.position (food g') ≠ Food.position (food g) ∧
    (Food.position (food g') ∉ Snake.positions (snake g')) ∧
    (Food.position (food g') ∉ Obstacles.positions (obstacles g')))).
Proof.
  intros Hover. unfold update. rewrite Hover.
  assert ((∃ g1 r1, (if autopilot_on g then autopilot g r else Some (g, r)) = Some (g1, r1)
                    ∧ same_but_heading g g1) ∨
          (if autopilot_on g then autopilot g r else Some (g, r)) = None) as Hpre.
  { destruct (autopilot_on g).
    - destruct (autopilot g r) as [[g1 r1]|] eqn:E; [|by right].
      left. exists g1, r1. split; [done|]. by eapply autopilot_frame.
    - left. exists g, r. by repeat split. }
  destruct Hpre as [(g1 & r1 & -> & Ho & Hf & Hov & Ha & Hp & Hl & Hs) | -> ]; [|done].
  cbn [mbind option_bind].
  destruct (Snake.move (snake g1)) as [[c s2]|] eqn:Em; [|done].
  cbn [mbind option_bind].
  destruct (Snake.get_head_position s2) as [hd|] eqn:Eh; [|done].
  cbn [mbind option_bind].
  destruct (move_counters _ _ _ Em) as [Hl2 Hs2].
  assert ((if c then true
           else if bool_decide (hd ∈ Obstacles.positions (obstacles g1))
                then true else game_over g1) = false →
          hd ∉ Obstacles.positions (obstacles g)) as Hfree.
  { destruct c; [done|]. case_bool_decide; [done|]. by rewrite <- Ho. }
  destruct (bool_decide (hd = Food.position (food g1))) eqn:Hfood;
    [apply bool_decide_eq_true in Hfood|apply bool_decide_eq_false in Hfood].
  - destruct (Food.randomize_position _ _ _ _ _) as [[f' r2]|] eqn:Er;
      cbn [mbind option_bind]; [|done].
    intros [= <- <-]. simpl.
    apply randomize_position_fresh in Er as (Hnew & Hobs & Hbody). simpl in Hbody.
    split; [done|]. split; [done|]. split.
    { intros Hrun hd' Hhd'. unfold Snake.get_head_position in *. simpl in Hhd'.
      assert (hd' = hd) as -> by congruence. rewrite Ho. by apply Hfree. }
    right. unfold Snake.get_head_position in *. simpl.
    rewrite Hf in *. split; [congruence|]. split; [lia|]. split; [lia|].
    by repeat split.
  - intros [= <- <-]. simpl.
    split; [done|]. split; [done|]. split.
    { intros Hrun hd' Hhd'. assert (hd' = hd) as -> by congruence.
      rewrite Ho. by apply Hfree. }
    left. rewrite Hf in *. split; [congruence|]. split; [done|]. split; lia.
Qed.

Lemma update_running_witness :
  let g := mkGame (Snake.mk 1 [(2, 2)] RIGHT 0) (Obstacles.mk [(9, 9)] 1)
                  (Food.mk (3, 2)) false false [] in
  let g' := mkGame (Snake.mk 2 [(3, 2)] RIGHT 1) (Obstacles.mk [(9, 9)] 1)
                   (Food.mk (0, 1)) false false [] in
  Snake.score (snake g') = Snake.score (snake g) + 1 ∧
  Food.position (food g') ≠ Food.position (food g).
Proof.
  intros g g'.
  destruct (update_running 2 g g' Z.of_nat (λ n, Z.of_nat (2 + n)) eq_refl eq_refl)
    as (_ & _ & _ & [(Hhd & _)|(_ & Hs & _ & _ & Hf & _)]).
  - exfalso. apply Hhd. reflexivity.
  - by split.
Defined.

(** Lines 410-411: the frame rate handed to the clock. *)
Definition game_speed (s : Snake.t) : Z := 10 + Snake.score s `div` 5.

Definition frame_rate (s : Snake.t) : Z := Z.min (game_speed s) 30.

(** X13.  For a score that is not negative the frame rate lies between 10
    and 30, never falls when the score rises, goes up by one every five
    points and sits at the cap of 30 exactly from score 100 on. *)
Theorem frame_rate_bounds (s s2 : Snake.t) :
  0 ≤ Snake.score s →
  10 ≤ frame_rate s ≤ 30 ∧
  (Snake.score s ≤ Snake.score s2 → frame_rate s ≤ frame_rate s2) ∧
  (Snake.score s2 = Snake.score s + 5 → Snake.score s < 100 →
     frame_rate s2 = frame_rate s + 1) ∧
  (frame_rate s = 30 ↔ 100 ≤ Snake.score s).
Proof.
  unfold frame_rate, game_speed. intros Hs.
  repeat split; intros; Z.to_euclidean_division_equations; lia.
Qed.

Lemma frame_rate_bounds_witness :
  frame_rate (Snake.mk 48 [(1, 1)] UP 47) = 19.
Proof.
  destruct (frame_rate_bounds (Snake.mk 43 [(1, 1)] UP 42) (Snake.mk 48 [(1, 1)] UP 47))
    as (_ & _ & Hstep & _).
  - simpl. lia.
  - rewrite Hstep; [reflexivity|reflexivity|simpl; lia].
Defined.

Lemma removelast_twice {A : Type} (l : list A) :
  removelast (removelast l) = take (length l - 2) l.
Proof.
  rewrite !List.removelast_firstn_len, length_take, take_take.
  f_equal. lia.
Qed.

(** X14.  [game_loop] already drops the tail before calling the pathfinder
    when [length > 1], and the pathfinder drops one more cell: the search
    treats as blocked the obstacles and the body without its last two
    cells.  With [length <= 1] only the last cell is left out. *)
Theorem pathfinder_body_exemption (s : Snake.t) (obs : list coord) (c : coord) :
  (1 < Snake.length s →
     blocked (body_to_avoid_for_bfs s) obs c = true ↔
       c ∈ obs ∨ c ∈ take (length (Snake.positions s) - 2) (Snake.positions s)) ∧
  (Snake.length s ≤ 1 →
     blocked (body_to_avoid_for_bfs s) obs c = true ↔
       c ∈ obs ∨ c ∈ take (length (Snake.positions s) - 1) (Snake.positions s)).
Proof.
  unfold blocked, body_to_avoid_for_bfs.
  split; intros Hlen; rewrite orb_true_iff, !bool_decide_eq_true.
  - rewrite (proj2 (Z.ltb_lt _ _) Hlen). by rewrite removelast_twice.
  - rewrite (proj2 (Z.ltb_ge _ _) Hlen).
    rewrite List.removelast_firstn_len. by rewrite Nat.sub_1_r.
Qed.

(** ** Length of the path found *)

Definition manhattan (a b : coord) : Z := Z.abs (b.1 - a.1) + Z.abs (b.2 - a.2).

Lemma neighbour_manhattan c n t : neighbour c n → manhattan c t ≤ manhattan n t + 1.
Proof.
  intros (d & Hd & ->). unfold manhattan, step_to.
  destruct (directions_cases d Hd) as [-> | [-> | [-> | -> ]]]; simpl; lia.
Qed.

Lemma route_manhattan snake_body obs c r t :
  route snake_body obs c r → last (c :: r) = Some t →
  manhattan c t ≤ Z.of_nat (length r).
Proof.
  revert c. induction r as [|n r IH]; intros c Hr Hl.
  - injection Hl as ->. unfold manhattan. simpl. lia.
  - destruct Hr as (Hn & _ & Hr). rewrite last_cons_cons in Hl.
    pose proof (IH n Hr Hl). pose proof (neighbour_manhattan c n t Hn).
    cbn [length]. lia.
Qed.

Lemma route_length_bound snake_body obs c r :
  route snake_body obs c r → NoDup r → (length r ≤ 400)%nat.
Proof.
  intros Hr Hnd. apply route_free in Hr.
  rewrite <- (size_list_to_set (C := gset coord) r Hnd).
  etrans; [|apply size_grid_set]. apply subseteq_size.
  intros x Hx%elem_of_list_to_set.
  rewrite Forall_forall in Hr. destruct (Hr x Hx) as [Hin _].
  by apply in_bounds_grid.
Qed.

Lemma step_closer c t :
  on_board c → on_board t → 0 < manhattan c t →
  ∃ d, d ∈ DIRECTIONS ∧ on_board (step_to c d) ∧
       manhattan (step_to c d) t = manhattan c t - 1.
Proof.
  unfold on_board, manhattan, step_to. intros [Hcx Hcy] [Htx Hty] Hpos.
  assert (UP ∈ DIRECTIONS ∧ DOWN ∈ DIRECTIONS ∧ LEFT ∈ DIRECTIONS ∧ RIGHT ∈ DIRECTIONS)
    as (Hu & Hd & Hl & Hr)
    by (repeat split; apply (bool_decide_unpack _); reflexivity).
  destruct (Z.lt_trichotomy c.1 t.1) as [Hx|[Hx|Hx]].
  - exists RIGHT. split; [done|]. simpl. lia.
  - destruct (Z.lt_trichotomy c.2 t.2) as [Hy|[Hy|Hy]].
    + exists DOWN. split; [done|]. simpl. lia.
    + lia.
    + exists UP. split; [done|]. simpl. lia.
  - exists LEFT. split; [done|]. simpl. lia.
Qed.

Lemma straight_route snake_body obs t :
  (∀ c, blocked snake_body obs c = false) → on_board t →
  ∀ k c, on_board c → manhattan c t = Z.of_nat k →
    ∃ r, route snake_body obs c r ∧ last (c :: r) = Some t ∧ length r = k.
Proof.
  intros Hfree Ht. induction k as [|k IH]; intros c Hc Hk.
  - exists []. split; [done|]. split; [|done].
    assert (c = t) as -> ; [|done].
    unfold manhattan in Hk. destruct c as [x y], t as [tx ty].
    cbn [fst snd] in Hk. f_equal; lia.
  - destruct (step_closer c t Hc Ht) as (d & Hd & Hn & Hm); [lia|].
    destruct (IH (step_to c d) Hn) as (r & Hr & Hl & Hlen); [lia|].
    exists (step_to c d :: r). split; [|split].
    + split; [by exists d|]. split; [|done].
      split; [by apply in_bounds_spec|apply Hfree].
    + by rewrite last_cons_cons.
    + simpl. by rewrite Hlen.
Qed.

(** X15.  A returned path has at most 400 cells.  A non-empty one is at
    least as long as the Manhattan distance from start to target.  When no
    cell is blocked and both ends are on the board, its length is exactly
    that distance. *)
Theorem bfs_path_length (start target : coord) (snake_body obs path : list coord) :
  bfs_pathfinding start target snake_body obs = Some path →
  Z.of_nat (length path) ≤ 400 ∧
  (path ≠ [] → manhattan start target ≤ Z.of_nat (length path)) ∧
  ((0 ≤ start.1 < GRID_SIZE ∧ 0 ≤ start.2 < GRID_SIZE) →
   (0 ≤ target.1 < GRID_SIZE ∧ 0 ≤ target.2 < GRID_SIZE) →
   (∀ c, (c ∉ obs) ∧ (c ∉ removelast snake_body)) →
   Z.of_nat (length path) = manhattan start target).
Proof.
  intros Hbfs.
  destruct (bfs_loop_total start target snake_body obs) as (res & Hres & Hpost).
  rewrite Hbfs in Hres. injection Hres as <-.
  assert ((0 ≤ start.1 < GRID_SIZE ∧ 0 ≤ start.2 < GRID_SIZE) →
          (0 ≤ target.1 < GRID_SIZE ∧ 0 ≤ target.2 < GRID_SIZE) →
          (∀ c, (c ∉ obs) ∧ (c ∉ removelast snake_body)) →
          ∃ r, route snake_body obs start r ∧ last (start :: r) = Some target ∧
               Z.of_nat (length r) = manhattan start target) as Hstraight.
  { intros Hs Ht Hfree.
    destruct (straight_route snake_body obs target) with
      (k := Z.to_nat (manhattan start target)) (c := start) as (r & Hr & Hl & Hlen);
      try done.
    - intros c. destruct (Hfree c) as [Ho Hb]. unfold blocked.
      by rewrite !bool_decide_eq_false_2.
    - unfold manhattan. lia.
    - exists r. split; [done|]. split; [done|]. unfold manhattan in *. lia. }
  destruct Hpost as [[-> Hno]|([Hw Hl] & Hnd & Hmin)].
  - split; [simpl; lia|]. split; [done|]. intros Hs Ht Hfree.
    destruct (Hstraight Hs Ht Hfree) as (r & Hr & Hlr & _).
    destruct Hno. exists (start :: r). split; [by apply route_walk|done].
  - destruct (walk_route _ _ _ _ Hw) as (r0 & [= <-] & Hr0).
    pose proof (route_manhattan _ _ _ _ _ Hr0 Hl) as Hlow.
    apply NoDup_cons in Hnd as [_ Hnd].
    pose proof (route_length_bound _ _ _ _ Hr0 Hnd) as Hup.
    split; [lia|]. split; [done|]. intros Hs Ht Hfree.
    destruct (Hstraight Hs Ht Hfree) as (r & Hr & Hlr & Hlen).
    specialize (Hmin (start :: r) (conj (route_walk _ _ _ _ Hr) Hlr)).
    cbn [length] in Hmin. lia.
Qed.

Lemma bfs_path_length_witness :
  Z.of_nat (length [(0, 1); (0, 2); (1, 2)]) = manhattan (0, 0) (1, 2).
Proof.
  destruct (bfs_path_length (0, 0) (1, 2) [(0, 0)] [] [(0, 1); (0, 2); (1, 2)])
    as (_ & _ & Heq).
  - by vm_compute.
  - apply Heq; [by vm_compute|by vm_compute|].
    intros c. split; apply not_elem_of_nil.
Defined.
